(** * LRUCache.h: a shallow embedding of the LRU cache and its properties

    The class [LRUCache<Key, Value, Hash, KeyEqual>] of [src/LRUCache.h]
    keeps a [std::list] of (key, value) pairs, most recently used first,
    and a [std::unordered_map] from keys to iterators into that list.

    - A [std::list] is a sequence of nodes.  An iterator is the identity of
      a node (or the past-the-end position) and stays valid while other
      nodes are moved, so a list is modelled as a sequence of
      (node identity, payload) pairs and an iterator as a node identity.
    - Operations whose precondition the C++ standard leaves to the caller
      ([back] and [pop_back] on an empty list, going through an iterator
      that designates no node) are modelled in an error monad: they yield
      [Undefined] together with the precondition that was broken.
    - [Hash] and [KeyEqual] become a [Countable] key type, the
      [unordered_map] a [gmap].
    - [size_t] values are natural numbers ([N]); the class only compares
      them, it performs no arithmetic on them.
    - Every member function takes [mutex_] for its whole body; the
      embedding is the sequential semantics of one such body. *)

From Stdlib Require Import NArith ZArith String.
From stdpp Require Import base option list gmap strings sorting.

Set Default Proof Using "Type".

(** ** The error monad *)

Inductive ub : Type :=
  | BackOnEmpty
  | PopBackOnEmpty
  | InvalidIterator.

Inductive result (A : Type) : Type :=
  | Ok (a : A)
  | Undefined (u : ub).
Arguments Ok {A} a.
Arguments Undefined {A} u.

#[global] Instance result_bind : MBind result := λ A B f m,
  match m with
  | Ok a => f a
  | Undefined u => Undefined u
  end.
#[global] Instance result_fmap : FMap result := λ A B f m,
  match m with
  | Ok a => Ok (f a)
  | Undefined u => Undefined u
  end.

Definition is_Ok {A} (m : result A) : Prop := ∃ a, m = Ok a.

(** ** [std::list] with stable node identities *)

Module StdList.

Inductive iterator : Type :=
  | It (node : nat)
  | End.

#[global] Instance iterator_eq_dec : EqDecision iterator.
Proof. solve_decision. Defined.

Section ops.
Context {A : Type}.

Definition t : Type := list (nat * A).

Definition size (l : t) : N := N.of_nat (length l).

Definition begin (l : t) : iterator :=
  match l with
  | [] => End
  | (n, _) :: _ => It n
  end.

(** The node a fresh allocation returns: any identity that no live
    node of the list has. *)
Definition fresh_node (l : t) : nat := S (max_list (l.*1)).

Definition emplace_front (a : A) (l : t) : t := (fresh_node l, a) :: l.

Definition back (l : t) : result A :=
  match last l with
  | Some (_, a) => Ok a
  | None => Undefined BackOnEmpty
  end.

Definition pop_back (l : t) : result t :=
  match l with
  | [] => Undefined PopBackOnEmpty
  | _ :: _ => Ok (removelast l)
  end.

(** Detach the node [n]: its payload and the remaining sequence. *)
Fixpoint unlink (n : nat) (l : t) : option (A * t) :=
  match l with
  | [] => None
  | (m, a) :: l' =>
      if decide (m = n) then Some (a, l')
      else '(b, r) ← unlink n l'; Some (b, (m, a) :: r)
  end.

(** [l.splice(l.begin(), l, it)]: the node moves to the front, it is
    neither copied nor reallocated. *)
Definition splice_front (it : iterator) (l : t) : result t :=
  match it with
  | End => Undefined InvalidIterator
  | It n =>
      match unlink n l with
      | Some (a, r) => Ok ((n, a) :: r)
      | None => Undefined InvalidIterator
      end
  end.

Fixpoint find_node (n : nat) (l : t) : option A :=
  match l with
  | [] => None
  | (m, a) :: l' => if decide (m = n) then Some a else find_node n l'
  end.

(** Reading the payload through [it]. *)
Definition deref (it : iterator) (l : t) : result A :=
  match it with
  | End => Undefined InvalidIterator
  | It n =>
      match find_node n l with
      | Some a => Ok a
      | None => Undefined InvalidIterator
      end
  end.

Fixpoint update_node (f : A → A) (n : nat) (l : t) : option t :=
  match l with
  | [] => None
  | (m, a) :: l' =>
      if decide (m = n) then Some ((m, f a) :: l')
      else r ← update_node f n l'; Some ((m, a) :: r)
  end.

(** A write through [it]: the payload [a] of its node becomes [f a]. *)
Definition assign (f : A → A) (it : iterator) (l : t) : result t :=
  match it with
  | End => Undefined InvalidIterator
  | It n =>
      match update_node f n l with
      | Some l' => Ok l'
      | None => Undefined InvalidIterator
      end
  end.

Definition nodes (l : t) : list nat := l.*1.
End ops.
Arguments t A : clear implicits.

End StdList.

Import StdList.

(** ** The cache *)

Section LRUCache.
Context {K : Type} `{Countable K} {V : Type}.

Record LRUCache : Type := mkLRUCache {
  capacity_ : N;
  items_list_ : StdList.t (K * V);
  items_map_ : gmap K iterator;
}.

(** [explicit LRUCache(size_t capacity)] *)
Definition new (capacity : N) : LRUCache :=
  {| capacity_ := capacity; items_list_ := []; items_map_ := ∅ |}.

Definition with_list (l : StdList.t (K * V)) (c : LRUCache) : LRUCache :=
  {| capacity_ := capacity_ c; items_list_ := l; items_map_ := items_map_ c |}.

(** [std::optional<Value> get(const Key& key)] *)
Definition get (key : K) (c : LRUCache) : result (LRUCache * option V) :=
  match items_map_ c !! key with
  | None => Ok (c, None)
  | Some it =>
      l ← splice_front it (items_list_ c);
      e ← deref it l;
      Ok (with_list l c, Some e.2)
  end.

(** The block under [// Evict if full]. *)
Definition evict_if_full (c : LRUCache)
    : result (StdList.t (K * V) * gmap K iterator) :=
  if (capacity_ c <=? StdList.size (items_list_ c))%N then
    lru ← back (items_list_ c);
    l ← pop_back (items_list_ c);
    Ok (l, delete lru.1 (items_map_ c))
  else Ok (items_list_ c, items_map_ c).

(** [void put(const Key& key, const Value& value)] *)
Definition put (key : K) (value : V) (c : LRUCache) : result LRUCache :=
  match items_map_ c !! key with
  | Some it =>
      l ← assign (λ e, (e.1, value)) it (items_list_ c);
      l' ← splice_front it l;
      Ok (with_list l' c)
  | None =>
      '(l, m) ← evict_if_full c;
      let l' := emplace_front (key, value) l in
      Ok {| capacity_ := capacity_ c;
            items_list_ := l';
            items_map_ := <[key := begin l']> m |}
  end.

(** [bool exists(const Key& key) const] *)
Definition exists_ (key : K) (c : LRUCache) : bool :=
  bool_decide (is_Some (items_map_ c !! key)).

(** [size_t size() const] *)
Definition size (c : LRUCache) : N := StdList.size (items_list_ c).

(** *** Observations on a state *)

(** The entries in list order, most recently used first. *)
Definition entries (c : LRUCache) : list (K * V) := (items_list_ c).*2.
Definition keys (c : LRUCache) : list K := (entries c).*1.
Definition resident (k : K) (c : LRUCache) : Prop := k ∈ keys c.
#[global] Instance resident_dec k c : Decision (resident k c).
Proof. unfold resident. apply _. Defined.
Definition stored (k : K) (c : LRUCache) : option V :=
  (λ p, p.2.2) <$> list_find (λ e, e.1 = k) (entries c).

(** Which node holds which key. *)
Definition index (l : StdList.t (K * V)) : list (nat * K) :=
  (λ p, (p.1, p.2.1)) <$> l.

(** The representation invariant of the class: the nodes of the list are
    distinct, so are their keys, the map sends exactly the keys of the
    list to the nodes that hold them, and the list is no longer than the
    capacity. *)
Record wf (c : LRUCache) : Prop := mk_wf {
  wf_nodes : NoDup (nodes (items_list_ c));
  wf_keys : NoDup (keys c);
  wf_map : ∀ k it,
    items_map_ c !! k = Some it ↔
    ∃ n, it = It n ∧ (n, k) ∈ index (items_list_ c);
  wf_size : (size c ≤ capacity_ c)%N;
}.

(** *** Calls, replies and runs *)

Inductive call : Type :=
  | Get (k : K)
  | Put (k : K) (v : V)
  | Exists (k : K)
  | Size.

Inductive reply : Type :=
  | RGet (o : option V)
  | RPut
  | RExists (b : bool)
  | RSize (n : N).

Definition step (o : call) (c : LRUCache) : result (LRUCache * reply) :=
  match o with
  | Get k => '(c', r) ← get k c; Ok (c', RGet r)
  | Put k v => c' ← put k v c; Ok (c', RPut)
  | Exists k => Ok (c, RExists (exists_ k c))
  | Size => Ok (c, RSize (size c))
  end.

(** A run of calls.  The transcript lists the calls made with their
    replies, the latest call first; [tr] is the transcript so far. *)
Fixpoint exec (ops : list call) (c : LRUCache) (tr : list (call * reply))
    : result (LRUCache * list (call * reply)) :=
  match ops with
  | [] => Ok (c, tr)
  | o :: ops' => '(c', r) ← step o c; exec ops' c' ((o, r) :: tr)
  end.

Definition reachable (capacity : N) (c : LRUCache)
    (tr : list (call * reply)) : Prop :=
  ∃ ops, exec ops (new capacity) [] = Ok (c, tr).

(** *** Recency, as the specification words it

    A key is touched by every [put] of it and by every [get] of it that
    hits.  [touches tr] lists the touched keys of a transcript, the
    latest touch first, and [age k ks] counts the touches made since the
    last touch of [k]. *)

Definition touched (e : call * reply) : list K :=
  match e with
  | (Put k _, _) => [k]
  | (Get k, RGet (Some _)) => [k]
  | _ => []
  end.

Definition touches (tr : list (call * reply)) : list K := tr ≫= touched.

Fixpoint age (k : K) (ks : list K) : option nat :=
  match ks with
  | [] => None
  | x :: ks' => if decide (x = k) then Some 0 else S <$> age k ks'
  end.

(** [a] was last touched after [b] was last touched. *)
Definition more_recent (ks : list K) (a b : K) : Prop :=
  ∃ i j, age a ks = Some i ∧ age b ks = Some j ∧ i < j.

(** The list is ordered by recency: whatever sits nearer the front was
    touched later, and every resident key has been touched. *)
Definition recency_ordered (c : LRUCache) (tr : list (call * reply)) : Prop :=
  StronglySorted (more_recent (touches tr)) (keys c) ∧
  ∀ k, resident k c → k ∈ touches tr.

Definition is_exists (o : call) : bool :=
  match o with
  | Exists _ => true
  | _ => false
  end.

Definition without_exists (ops : list call) : list call :=
  filter (λ o, ¬ is_exists o) ops.

Definition without_exists_replies (tr : list (call * reply))
    : list (call * reply) :=
  filter (λ e, ¬ is_exists e.1) tr.

End LRUCache.

Arguments LRUCache K {_ _} V.
Arguments entries : simpl never.
Arguments keys : simpl never.
Arguments size : simpl never.
Arguments call K V : clear implicits.
Arguments reply V : clear implicits.

(** ** The history of a run

    What a transcript tells about the keys and values a cache was given:
    the keys it was asked to store, the value of the latest [put] of a
    key, and the distinct keys of a list of touches, each at the place of
    its latest touch. *)

Section history.
Context {K : Type} `{Countable K} {V : Type}.

Fixpoint mru (ks : list K) : list K :=
  match ks with
  | [] => []
  | k :: ks' => k :: filter (λ x, x ≠ k) (mru ks')
  end.

Definition put_key (e : call K V * reply V) : list K :=
  match e.1 with
  | Put k _ => [k]
  | _ => []
  end.

Definition put_keys (tr : list (call K V * reply V)) : list K :=
  tr ≫= put_key.

Fixpoint last_put (k : K) (tr : list (call K V * reply V)) : option V :=
  match tr with
  | [] => None
  | (Put k' v, _) :: tr' => if decide (k' = k) then Some v else last_put k tr'
  | _ :: tr' => last_put k tr'
  end.

(** The entries of the other keys. *)
Definition others (k : K) (es : list (K * V)) : list (K * V) :=
  filter (λ e, e.1 ≠ k) es.

(** Three properties of a state and the transcript that led to it. *)
Definition holds_most_recent (capacity : N) (c : LRUCache K V)
    (tr : list (call K V * reply V)) : Prop :=
  keys c = take (N.to_nat capacity) (mru (touches tr)).

Definition holds_latest_values (c : LRUCache K V)
    (tr : list (call K V * reply V)) : Prop :=
  ∀ k v, (k, v) ∈ entries c → last_put k tr = Some v.

Definition touched_were_put (tr : list (call K V * reply V)) : Prop :=
  ∀ k, k ∈ touches tr ↔ k ∈ put_keys tr.

(** By how much a call to a cache of size below [capacity] may grow it. *)
Definition growth (capacity : N) (o : call K V) (c : LRUCache K V) : N :=
  match o with
  | Put k _ =>
      if decide (resident k c) then 0
      else if decide (size c < capacity)%N then 1 else 0
  | _ => 0
  end.

End history.

(** ** The demonstration program

    [main] under [LRU_CACHE_EXAMPLE] instantiates the class at [int] keys
    and [std::string] values. *)

Module Example.
Open Scope Z_scope.
Open Scope string_scope.

Definition loads : list (call Z string) :=
  [Put 1 "one"; Put 2 "two"; Put 3 "three"].

Definition main : list (call Z string) :=
  loads ++ [Get 2; Put 4 "four"; Exists 1; Exists 3].

(** The cache of [main] after its three first calls. *)
Definition loaded : LRUCache Z string :=
  {| capacity_ := 3;
     items_list_ :=
       [(3%nat, (3, "three")); (2%nat, (2, "two")); (1%nat, (1, "one"))];
     items_map_ := <[3 := It 3]> (<[2 := It 2]> (<[1 := It 1]> ∅)) |}.

Definition loaded_transcript : list (call Z string * reply string) :=
  [(Put 3 "three", RPut); (Put 2 "two", RPut); (Put 1 "one", RPut)].

(** The calls of [main] in [Main.cpp]. *)
Definition main_cpp : list (call Z string) :=
  [Put 1 "10"; Put 2 "two"; Get 1].

Definition run_replies (ops : list (call Z string)) (capacity : N)
    : result (list Z * list (reply string)) :=
  (λ p, (keys p.1, reverse (p.2.*2))) <$> exec ops (new capacity) [].
End Example.

(** ** Facts about the list operations *)

Section StdList_facts.
Context {A : Type}.
Implicit Types (l r : StdList.t A) (n : nat) (a : A).

Lemma unlink_middle n a l1 l2 :
  n ∉ l1.*1 → unlink n (l1 ++ (n, a) :: l2) = Some (a, l1 ++ l2).
Proof.
  induction l1 as [|[m b] l1 IH]; simpl; intros Hn.
  - by rewrite decide_True.
  - rewrite not_elem_of_cons in Hn. destruct Hn as [Hne Hn].
    rewrite decide_False by done. by rewrite IH.
Qed.

Lemma find_node_middle n a l1 l2 :
  n ∉ l1.*1 → find_node n (l1 ++ (n, a) :: l2) = Some a.
Proof.
  induction l1 as [|[m b] l1 IH]; simpl; intros Hn.
  - by rewrite decide_True.
  - rewrite not_elem_of_cons in Hn. destruct Hn as [Hne Hn].
    rewrite decide_False by done. by apply IH.
Qed.

Lemma update_node_middle f n a l1 l2 :
  n ∉ l1.*1 →
  update_node f n (l1 ++ (n, a) :: l2) = Some (l1 ++ (n, f a) :: l2).
Proof.
  induction l1 as [|[m b] l1 IH]; simpl; intros Hn.
  - by rewrite decide_True.
  - rewrite not_elem_of_cons in Hn. destruct Hn as [Hne Hn].
    rewrite decide_False by done. by rewrite IH.
Qed.

Lemma fresh_node_fresh l : fresh_node l ∉ l.*1.
Proof.
  intros Hin. apply max_list_elem_of_le in Hin.
  unfold fresh_node in Hin. lia.
Qed.

Lemma back_snoc l n a : back (l ++ [(n, a)]) = Ok a.
Proof. unfold back. by rewrite last_snoc. Qed.

Lemma pop_back_snoc l x : pop_back (l ++ [x]) = Ok l.
Proof.
  unfold pop_back. rewrite removelast_last.
  by destruct l.
Qed.

Lemma size_pos_snoc l :
  (0 < StdList.size l)%N → ∃ l' n a, l = l' ++ [(n, a)].
Proof.
  destruct l as [|x l _] using rev_ind; unfold StdList.size; simpl.
  - lia.
  - destruct x as [n a]. eauto.
Qed.
End StdList_facts.

(** ** The representation invariant *)

Section invariant.
Context {K : Type} `{Countable K} {V : Type}.
Implicit Types (c : LRUCache K V) (l : StdList.t (K * V)) (k : K) (v : V).

Lemma nodes_index l : nodes l = (index l).*1.
Proof. unfold nodes, index. by rewrite <-list_fmap_compose. Qed.

Lemma keys_index c : keys c = (index (items_list_ c)).*2.
Proof. unfold keys, entries, index. by rewrite <-!list_fmap_compose. Qed.

Lemma size_index c : size c = N.of_nat (length (index (items_list_ c))).
Proof. unfold size, StdList.size, index. by rewrite length_fmap. Qed.

Lemma wf_new capacity : wf (new (K:=K) (V:=V) capacity).
Proof.
  split; simpl.
  - constructor.
  - constructor.
  - intros k it. rewrite lookup_empty. split; [done|].
    intros (n & _ & Hin). by apply elem_of_nil in Hin.
  - unfold size, StdList.size. simpl. lia.
Qed.

(** The invariant only looks at which node holds which key, in any
    order. *)
Lemma wf_index_perm c l :
  wf c → index l ≡ₚ index (items_list_ c) → wf (with_list l c).
Proof.
  intros [Hn Hk Hm Hs] Hp. split; simpl.
  - rewrite nodes_index in *. by rewrite Hp.
  - rewrite keys_index in *. simpl. by rewrite Hp.
  - intros k it. rewrite Hm. by setoid_rewrite Hp.
  - rewrite size_index in *. simpl. by rewrite Hp.
Qed.

Lemma wf_resident c k : wf c → resident k c ↔ is_Some (items_map_ c !! k).
Proof.
  intros Hwf. unfold resident. rewrite keys_index, list_elem_of_fmap. split.
  - intros ([n k'] & -> & Hin). exists (It n).
    apply (wf_map _ Hwf). eauto.
  - intros [it Hit]. apply (wf_map _ Hwf) in Hit as (n & -> & Hin).
    by exists (n, k).
Qed.

(** The iterator the map keeps for a key designates the one node of the
    list that holds this key. *)
Lemma wf_locate c k it :
  wf c → items_map_ c !! k = Some it →
  ∃ n l1 v l2, it = It n ∧ items_list_ c = l1 ++ (n, (k, v)) :: l2 ∧
    (n ∉ l1.*1).
Proof.
  intros Hwf Hit. apply (wf_map _ Hwf) in Hit as (n & -> & Hin).
  apply list_elem_of_fmap in Hin as ([n' [k' v]] & [= <- <-] & Hin).
  apply list_elem_of_split in Hin as (l1 & l2 & Hl).
  exists n, l1, v, l2. split_and!; [done..|].
  pose proof (wf_nodes _ Hwf) as Hnd. unfold nodes in Hnd.
  rewrite Hl, fmap_app, fmap_cons in Hnd.
  apply NoDup_app in Hnd as (_ & Hd & _).
  intros Hn. apply (Hd _ Hn). simpl. left.
Qed.

Lemma wf_absent c k : wf c → items_map_ c !! k = None ↔ ¬ resident k c.
Proof.
  intros Hwf. rewrite (wf_resident _ _ Hwf), eq_None_not_Some. done.
Qed.
End invariant.

(** ** What each member function does on a well-formed state *)

Section operations.
Context {K : Type} `{Countable K} {V : Type}.
Implicit Types (c : LRUCache K V) (l : StdList.t (K * V)) (k : K) (v : V).

(** Where a node sits in a well-formed list. *)
Lemma wf_at c n k v l1 l2 :
  wf c → items_list_ c = l1 ++ (n, (k, v)) :: l2 →
  items_map_ c !! k = Some (It n) ∧ (n ∉ l1.*1) ∧
  (k ∉ (l1.*2).*1) ∧ (k ∉ (l2.*2).*1).
Proof.
  intros Hwf Hl. split_and!.
  - apply (wf_map _ Hwf). exists n. split; [done|].
    rewrite Hl. unfold index. rewrite fmap_app, fmap_cons.
    apply elem_of_app. right. left.
  - pose proof (wf_nodes _ Hwf) as Hnd. unfold nodes in Hnd.
    rewrite Hl, fmap_app, fmap_cons in Hnd.
    apply NoDup_app in Hnd as (_ & Hd & _).
    intros Hn. apply (Hd _ Hn). left.
  - pose proof (wf_keys _ Hwf) as Hnd. unfold keys, entries in Hnd.
    rewrite Hl, !fmap_app, !fmap_cons in Hnd.
    apply NoDup_app in Hnd as (_ & Hd & _).
    intros Hn. apply (Hd _ Hn). left.
  - pose proof (wf_keys _ Hwf) as Hnd. unfold keys, entries in Hnd.
    rewrite Hl, !fmap_app, !fmap_cons in Hnd.
    apply NoDup_app in Hnd as (_ & _ & Hd).
    by apply NoDup_cons in Hd as [Hd _].
Qed.

Lemma resident_at c k :
  resident k c → ∃ n l1 v l2, items_list_ c = l1 ++ (n, (k, v)) :: l2.
Proof.
  unfold resident, keys, entries. rewrite <-list_fmap_compose.
  intros ([n [k' v]] & -> & Hin)%list_elem_of_fmap.
  apply list_elem_of_split in Hin as (l1 & l2 & Hl). by exists n, l1, v, l2.
Qed.

Lemma get_miss c k : items_map_ c !! k = None → get k c = Ok (c, None).
Proof. intros Hm. unfold get. by rewrite Hm. Qed.

Lemma get_hit c n k v l1 l2 :
  wf c → items_list_ c = l1 ++ (n, (k, v)) :: l2 →
  get k c = Ok (with_list ((n, (k, v)) :: l1 ++ l2) c, Some v).
Proof.
  intros Hwf Hl. destruct (wf_at _ _ _ _ _ _ Hwf Hl) as (Hm & Hn & _).
  unfold get. rewrite Hm, Hl. simpl.
  rewrite unlink_middle by done. simpl.
  by rewrite decide_True.
Qed.

Lemma put_hit c n k v v' l1 l2 :
  wf c → items_list_ c = l1 ++ (n, (k, v)) :: l2 →
  put k v' c = Ok (with_list ((n, (k, v')) :: l1 ++ l2) c).
Proof.
  intros Hwf Hl. destruct (wf_at _ _ _ _ _ _ Hwf Hl) as (Hm & Hn & _).
  unfold put. rewrite Hm, Hl. simpl.
  rewrite update_node_middle by done. simpl.
  by rewrite unlink_middle.
Qed.

Lemma put_room c k v :
  items_map_ c !! k = None → (size c < capacity_ c)%N →
  put k v c =
  Ok {| capacity_ := capacity_ c;
        items_list_ := emplace_front (k, v) (items_list_ c);
        items_map_ :=
          <[k := It (fresh_node (items_list_ c))]> (items_map_ c) |}.
Proof.
  intros Hm Hlt. unfold put, evict_if_full. rewrite Hm.
  unfold size in Hlt. apply N.leb_gt in Hlt. by rewrite Hlt.
Qed.

Lemma put_full c k v l n kl vl :
  items_map_ c !! k = None → (capacity_ c ≤ size c)%N →
  items_list_ c = l ++ [(n, (kl, vl))] →
  put k v c =
  Ok {| capacity_ := capacity_ c;
        items_list_ := emplace_front (k, v) l;
        items_map_ := <[k := It (fresh_node l)]> (delete kl (items_map_ c)) |}.
Proof.
  intros Hm Hle Hl. unfold put, evict_if_full. rewrite Hm.
  unfold size in Hle. apply N.leb_le in Hle. rewrite Hle, Hl.
  by rewrite back_snoc, pop_back_snoc.
Qed.

Lemma put_full_empty c k v :
  items_map_ c !! k = None → (capacity_ c ≤ size c)%N →
  items_list_ c = [] → put k v c = Undefined BackOnEmpty.
Proof.
  intros Hm Hle Hl. unfold put, evict_if_full. rewrite Hm.
  unfold size in Hle. apply N.leb_le in Hle. by rewrite Hle, Hl.
Qed.

(** *** Preservation of the invariant *)

Lemma wf_move_front c n e l1 l2 :
  wf c → items_list_ c = l1 ++ (n, e) :: l2 →
  wf (with_list ((n, e) :: l1 ++ l2) c).
Proof.
  intros Hwf Hl. apply wf_index_perm; [done|].
  rewrite Hl. unfold index. rewrite !fmap_app, !fmap_cons, fmap_app.
  apply Permutation_middle.
Qed.

Lemma wf_overwrite c n k v v' l1 l2 :
  wf c → items_list_ c = l1 ++ (n, (k, v)) :: l2 →
  wf (with_list ((n, (k, v')) :: l1 ++ l2) c).
Proof.
  intros Hwf Hl. apply wf_index_perm; [done|].
  rewrite Hl. unfold index. rewrite !fmap_app, !fmap_cons, fmap_app.
  apply Permutation_middle.
Qed.

Lemma wf_pop c l n kl vl :
  wf c → items_list_ c = l ++ [(n, (kl, vl))] →
  wf {| capacity_ := capacity_ c; items_list_ := l;
        items_map_ := delete kl (items_map_ c) |}.
Proof.
  intros Hwf Hl. destruct (wf_at _ _ _ _ _ _ Hwf Hl) as (Hm & Hn & Hk & _).
  destruct Hwf as [Hnd Hkd Hmap Hsz]. split; simpl.
  - unfold nodes in *. rewrite Hl, fmap_app in Hnd.
    by apply NoDup_app in Hnd as (? & _ & _).
  - unfold keys, entries in *. simpl. rewrite Hl, !fmap_app in Hkd.
    by apply NoDup_app in Hkd as (? & _ & _).
  - intros k it. rewrite lookup_delete. case_decide as Hkk.
    + subst k. split; [done|]. intros (n' & _ & Hin).
      exfalso. apply Hk. rewrite <-list_fmap_compose.
      apply list_elem_of_fmap in Hin as (p & [= _ ->] & Hp).
      apply list_elem_of_fmap. by exists p.
    + rewrite Hmap, Hl. unfold index. rewrite fmap_app. simpl.
      setoid_rewrite elem_of_app. setoid_rewrite list_elem_of_singleton.
      split; intros (n' & -> & Hin); exists n'; (split; [done|]).
      * destruct Hin as [Hin|[= _ Heq]]; [done|]. by destruct Hkk.
      * by left.
  - unfold size, StdList.size in *. simpl.
    rewrite Hl, length_app in Hsz. lia.
Qed.

Lemma wf_push c n k v :
  wf c → n ∉ nodes (items_list_ c) → ¬ resident k c →
  (size c < capacity_ c)%N →
  wf {| capacity_ := capacity_ c; items_list_ := (n, (k, v)) :: items_list_ c;
        items_map_ := <[k := It n]> (items_map_ c) |}.
Proof.
  intros [Hnd Hkd Hmap Hsz] Hn Hk Hlt. split; simpl.
  - unfold nodes in *. simpl. by apply NoDup_cons.
  - unfold keys, entries in *. simpl. by apply NoDup_cons.
  - intros k' it. rewrite lookup_insert. case_decide as Hkk.
    + subst k'. split.
      * intros [= <-]. exists n. split; [done|]. left.
      * intros (n' & -> & [[= ->]|Hin]%elem_of_cons); [done|].
        exfalso. apply Hk. unfold resident. rewrite keys_index.
        apply list_elem_of_fmap. by exists (n', k).
    + rewrite Hmap. setoid_rewrite elem_of_cons.
      split; intros (n' & -> & Hin); exists n'; (split; [done|]).
      * by right.
      * destruct Hin as [[= _ Heq]|Hin]; [|done]. by destruct Hkk.
  - unfold size, StdList.size in *. simpl. lia.
Qed.
End operations.

(** ** Recency of touches *)

Section recency.
Context {K : Type} `{Countable K}.
Implicit Types (k a b : K) (ks lg : list K).

Lemma age_is_Some k lg : is_Some (age k lg) ↔ k ∈ lg.
Proof.
  induction lg as [|x lg IH]; simpl.
  - split; [by intros [? ?]|by intros ?%elem_of_nil].
  - case_decide as Hx.
    + subst x. split; [left|eauto].
    + rewrite fmap_is_Some, IH, elem_of_cons.
      split; [by right|]. intros [->|Hin]; done.
Qed.

Lemma more_recent_head k b lg : b ≠ k → b ∈ lg → more_recent (k :: lg) k b.
Proof.
  intros Hne [j Hj]%age_is_Some. exists 0, (S j). simpl.
  rewrite decide_True by done. rewrite decide_False by done.
  rewrite Hj. split_and!; [done..|lia].
Qed.

Lemma more_recent_later k a b lg :
  a ≠ k → b ≠ k → more_recent lg a b → more_recent (k :: lg) a b.
Proof.
  intros Ha Hb (i & j & Hi & Hj & Hlt). exists (S i), (S j). simpl.
  rewrite !decide_False by done. rewrite Hi, Hj. split_and!; [done..|lia].
Qed.

Lemma StronglySorted_sublist (R : K → K → Prop) ks' ks :
  ks' `sublist_of` ks → StronglySorted R ks → StronglySorted R ks'.
Proof.
  induction 1 as [|x l1 l2 Hsub IH|x l1 l2 Hsub IH];
    rewrite ?StronglySorted_cons; [done|..].
  - intros [Hall Hs]. split; [|by apply IH].
    rewrite Forall_forall in *. intros y Hy. apply Hall.
    by eapply elem_of_sublist.
  - intros [_ Hs]. by apply IH.
Qed.

(** Touching [k] and moving it to the front of what is left of the list
    keeps the list ordered by recency. *)
Lemma recency_touch lg ks ks' k :
  StronglySorted (more_recent lg) ks → (∀ x, x ∈ ks → x ∈ lg) →
  ks' `sublist_of` ks → k ∉ ks' →
  StronglySorted (more_recent (k :: lg)) (k :: ks') ∧
  ∀ x, x ∈ k :: ks' → x ∈ k :: lg.
Proof.
  intros Hs Hin Hsub Hk. split.
  - apply StronglySorted_cons. split.
    + apply Forall_forall. intros b Hb. apply more_recent_head.
      * intros ->. done.
      * apply Hin. by eapply elem_of_sublist.
    + apply (StronglySorted_sublist _ _ _ Hsub) in Hs.
      clear Hsub Hin. induction Hs as [|a l Hs IH Hall]; [constructor|].
      apply not_elem_of_cons in Hk as [Hka Hk].
      constructor; [by apply IH|].
      rewrite Forall_forall in *. intros b Hb.
      apply more_recent_later; [done| |by apply Hall].
      intros ->. done.
  - intros x [->|Hx]%elem_of_cons; [left|right].
    apply Hin. by eapply elem_of_sublist.
Qed.
End recency.

(** ** One call, then runs of calls *)

Section runs.
Context {K : Type} `{Countable K} {V : Type}.
Implicit Types (c : LRUCache K V) (l : StdList.t (K * V)) (k : K) (v : V).
Implicit Types (o : call K V) (r : reply V) (tr : list (call K V * reply V)).

Lemma keys_with_list l c : keys (with_list l c) = (l.*2).*1.
Proof. done. Qed.

Lemma entries_with_list l c : entries (with_list l c) = l.*2.
Proof. done. Qed.

Lemma keys_middle l1 l2 n k v :
  (((l1 ++ (n, (k, v)) :: l2).*2).*1 : list K) = (l1.*2).*1 ++ k :: (l2.*2).*1.
Proof. by rewrite !fmap_app, !fmap_cons. Qed.

Lemma keys_front l1 l2 n k v :
  ((((n, (k, v)) :: l1 ++ l2).*2).*1 : list K) = k :: (l1.*2).*1 ++ (l2.*2).*1.
Proof. by rewrite !fmap_cons, !fmap_app. Qed.

Lemma sublist_drop_middle (ks1 ks2 : list K) k :
  ks1 ++ ks2 `sublist_of` ks1 ++ k :: ks2.
Proof. apply sublist_app; [done|]. by apply sublist_cons. Qed.

(** The effect of a [put] of a key that is not resident. *)
Lemma put_absent c k v :
  wf c → ¬ resident k c →
  ((size c < capacity_ c)%N ∧
     ∃ c', put k v c = Ok c' ∧ wf c' ∧ capacity_ c' = capacity_ c ∧
       entries c' = (k, v) :: entries c) ∨
  ((capacity_ c ≤ size c)%N ∧ items_list_ c = [] ∧
     put k v c = Undefined BackOnEmpty) ∨
  ((capacity_ c ≤ size c)%N ∧
     ∃ es kl vl c', entries c = es ++ [(kl, vl)] ∧
       put k v c = Ok c' ∧ wf c' ∧ capacity_ c' = capacity_ c ∧
       entries c' = (k, v) :: es).
Proof.
  intros Hwf Hk. pose proof Hk as Hm. apply (wf_absent _ _ Hwf) in Hm.
  destruct (decide (size c < capacity_ c)%N) as [Hlt|Hge].
  { left. split; [done|]. eexists. split; [by apply put_room|].
    split_and!; [|done..].
    apply wf_push; [done| |done..]. apply fresh_node_fresh. }
  right. apply N.nlt_ge in Hge.
  destruct (items_list_ c) as [|x l _] eqn:Hl using rev_ind.
  { left. split_and!; [done..|]. by apply put_full_empty. }
  right. split; [done|]. destruct x as [n [kl vl]].
  exists (l.*2), kl, vl. eexists. split_and!.
  - unfold entries. by rewrite Hl, fmap_app.
  - by eapply put_full.
  - pose proof (wf_pop _ _ _ _ _ Hwf Hl) as Hpop.
    apply (wf_push _ (fresh_node l) k v) in Hpop; [done|..]; simpl.
    + apply fresh_node_fresh.
    + intros Hin. apply Hk. unfold resident, keys, entries in *.
      simpl in Hin. rewrite Hl, !fmap_app. apply elem_of_app. by left.
    + pose proof (wf_size _ Hwf) as Hsz.
      unfold size, StdList.size in *. simpl.
      rewrite Hl, length_app in Hsz. simpl in Hsz. lia.
  - done.
  - done.
Qed.

(** What one call that returns does to a well-formed state. *)
Lemma step_inv c o c' r :
  wf c → step o c = Ok (c', r) →
  wf c' ∧ capacity_ c' = capacity_ c ∧
  match touched (o, r) with
  | [] => c' = c
  | k :: ks => ks = [] ∧ ∃ ks', keys c' = k :: ks' ∧ ks' `sublist_of` keys c
  end.
Proof.
  intros Hwf. destruct o as [k|k v|k|]; simpl.
  - destruct (items_map_ c !! k) as [it|] eqn:Hm.
    + assert (resident k c) as Hres by (apply wf_resident; eauto).
      destruct (resident_at _ _ Hres) as (n & l1 & v & l2 & Hl).
      rewrite (get_hit _ _ _ _ _ _ Hwf Hl). simpl. intros [= <- <-]. simpl.
      split_and!; [by apply wf_move_front|done..|].
      rewrite keys_with_list, keys_front. eexists. split; [done|].
      unfold keys, entries. rewrite Hl, keys_middle.
      apply sublist_drop_middle.
    + rewrite get_miss by done. simpl. by intros [= <- <-].
  - destruct (decide (resident k c)) as [Hres|Hres].
    + destruct (resident_at _ _ Hres) as (n & l1 & v0 & l2 & Hl).
      rewrite (put_hit _ _ _ _ v _ _ Hwf Hl). simpl. intros [= <- <-].
      split_and!; [by eapply wf_overwrite|done..|].
      rewrite keys_with_list, keys_front. eexists. split; [done|].
      unfold keys, entries. rewrite Hl, keys_middle.
      apply sublist_drop_middle.
    + destruct (put_absent _ _ v Hwf Hres)
        as [(_ & c1 & -> & Hwf1 & Hcap & Hes)|
            [(_ & _ & ->)|(_ & es & kl & vl & c1 & Hes0 & -> & Hwf1 & Hcap & Hes)]];
        simpl; [|done|]; intros [= <- <-].
      * split_and!; [done..|]. eexists. split; [|done].
        unfold keys. by rewrite Hes.
      * split_and!; [done..|]. exists (es.*1). unfold keys.
        rewrite Hes, Hes0, fmap_app. split; [done|].
        by apply sublist_inserts_r.
  - by intros [= <- <-].
  - by intros [= <- <-].
Qed.

(** With a capacity of at least one, no call on a well-formed state
    breaks a precondition of the list operations. *)
Lemma step_total c o :
  wf c → (1 ≤ capacity_ c)%N → is_Ok (step o c).
Proof.
  intros Hwf Hcap. destruct o as [k|k v|k|]; simpl; [| |by eexists..].
  - destruct (items_map_ c !! k) as [it|] eqn:Hm.
    + assert (resident k c) as Hres by (apply wf_resident; eauto).
      destruct (resident_at _ _ Hres) as (n & l1 & v & l2 & Hl).
      rewrite (get_hit _ _ _ _ _ _ Hwf Hl). by eexists.
    + rewrite get_miss by done. by eexists.
  - destruct (decide (resident k c)) as [Hres|Hres].
    + destruct (resident_at _ _ Hres) as (n & l1 & v0 & l2 & Hl).
      rewrite (put_hit _ _ _ _ v _ _ Hwf Hl). by eexists.
    + destruct (put_absent _ _ v Hwf Hres)
        as [(_ & c1 & -> & _)|
            [(Hle & Hnil & _)|(_ & es & kl & vl & c1 & _ & -> & _)]];
        [by eexists| |by eexists].
      unfold size, StdList.size in Hle. rewrite Hnil in Hle.
      simpl in Hle. lia.
Qed.

Lemma touches_cons o r tr :
  touches ((o, r) :: tr) = touched (o, r) ++ touches tr.
Proof. done. Qed.

Lemma step_recency c o c' r tr :
  wf c → recency_ordered c tr → step o c = Ok (c', r) →
  recency_ordered c' ((o, r) :: tr).
Proof.
  intros Hwf [Hs Hin] Hstep.
  destruct (step_inv _ _ _ _ Hwf Hstep) as (Hwf' & _ & Ht).
  unfold recency_ordered. rewrite touches_cons.
  destruct (touched (o, r)) as [|k ks]; [by subst c'|].
  destruct Ht as (-> & ks' & Hks & Hsub). simpl.
  unfold resident. rewrite Hks.
  apply recency_touch with (ks := keys c); [done..|].
  pose proof (wf_keys _ Hwf') as Hnd. rewrite Hks in Hnd.
  by apply NoDup_cons in Hnd as [? _].
Qed.

Lemma exec_inv ops c tr c' tr' :
  wf c → recency_ordered c tr → exec ops c tr = Ok (c', tr') →
  wf c' ∧ recency_ordered c' tr' ∧ capacity_ c' = capacity_ c.
Proof.
  revert c tr. induction ops as [|o ops IH]; intros c tr Hwf Hrec; simpl.
  - by intros [= <- <-].
  - destruct (step o c) as [[c1 r]|u] eqn:Hstep; simpl; [|done].
    intros Hexec.
    destruct (step_inv _ _ _ _ Hwf Hstep) as (Hwf1 & Hcap & _).
    apply IH in Hexec as (? & ? & ->); [done..|].
    by apply (step_recency c).
Qed.

Lemma exec_total ops c tr :
  wf c → (1 ≤ capacity_ c)%N → is_Ok (exec ops c tr).
Proof.
  revert c tr. induction ops as [|o ops IH]; intros c tr Hwf Hcap; simpl.
  - by eexists.
  - destruct (step_total c o Hwf Hcap) as [[c1 r] Hstep].
    rewrite Hstep. simpl.
    destruct (step_inv _ _ _ _ Hwf Hstep) as (Hwf1 & Hcap1 & _).
    apply IH; [done|]. by rewrite Hcap1.
Qed.

Lemma recency_new capacity :
  recency_ordered (new (K:=K) (V:=V) capacity) [].
Proof.
  split; [constructor|]. unfold resident. simpl.
  by intros k ?%elem_of_nil.
Qed.

Lemma reachable_inv capacity c tr :
  reachable capacity c tr →
  wf c ∧ recency_ordered c tr ∧ capacity_ c = capacity.
Proof.
  intros [ops Hexec].
  by apply exec_inv in Hexec; [|apply wf_new|apply recency_new].
Qed.
End runs.

(** ** Stored values and runs without membership tests *)

Section observations.
Context {K : Type} `{Countable K} {V : Type}.
Implicit Types (c : LRUCache K V) (k : K) (v : V).
Implicit Types (o : call K V) (r : reply V) (tr : list (call K V * reply V)).

Lemma size_entries c : size c = N.of_nat (length (entries c)).
Proof. unfold size, StdList.size, entries. by rewrite length_fmap. Qed.

Lemma stored_Some c k v :
  NoDup (keys c) → stored k c = Some v ↔ (k, v) ∈ entries c.
Proof.
  unfold stored, keys. generalize (entries c). intros es.
  induction es as [|[k0 v0] es IH]; simpl; intros Hnd.
  - split; [done|by intros ?%elem_of_nil].
  - apply NoDup_cons in Hnd as [Hk0 Hnd]. case_decide as Hk; simpl in Hk.
    + subst k0. simpl. rewrite elem_of_cons. split.
      * intros [= ->]. by left.
      * intros [[= ->]|Hin]; [done|]. exfalso. apply Hk0.
        apply list_elem_of_fmap. by exists (k, v).
    + rewrite <-option_fmap_compose. rewrite elem_of_cons, <-IH by done.
      split; [by right|]. by intros [[= -> ->]|?].
Qed.

(** Two well-formed states with the same entries, in any order, store
    the same value under every key. *)
Lemma stored_perm c c' :
  NoDup (keys c) → entries c' ≡ₚ entries c → ∀ k, stored k c' = stored k c.
Proof.
  intros Hnd Hp k. apply option_eq. intros v.
  rewrite !stored_Some; [by rewrite Hp|done|].
  unfold keys. by rewrite Hp.
Qed.

Lemma without_exists_replies_cons o r tr :
  without_exists_replies ((o, r) :: tr) =
  if is_exists o then without_exists_replies tr
  else (o, r) :: without_exists_replies tr.
Proof.
  unfold without_exists_replies. rewrite filter_cons. simpl.
  by destruct o.
Qed.

Lemma exec_without_exists ops c tr :
  exec (without_exists ops) c (without_exists_replies tr) =
  (λ p, (p.1, without_exists_replies p.2)) <$> exec ops c tr.
Proof.
  revert c tr. induction ops as [|o ops IH]; intros c tr; [done|].
  unfold without_exists. rewrite filter_cons. fold (without_exists ops).
  destruct (is_exists o) eqn:Ho; simpl.
  - destruct o; try done. simpl.
    rewrite <-IH. by rewrite without_exists_replies_cons.
  - destruct (step o c) as [[c1 r]|u]; simpl; [|done].
    rewrite <-IH. by rewrite without_exists_replies_cons, Ho.
Qed.
End observations.

(** ** The properties of the specification *)

Section properties.
Context {K : Type} `{Countable K} {V : Type}.
Implicit Types (c : LRUCache K V) (k : K) (v : V).
Implicit Types (o : call K V) (r : reply V) (tr : list (call K V * reply V)).

(** C1.  In a reachable state that holds at least one key and whose size
    equals the capacity, [put] of a key that is not resident removes the
    entry at the back of the list and nothing else, puts the new entry at
    the front, and leaves the size at the capacity.  The key removed is
    the least recently touched one: every other resident key was touched
    (by a [put], or by a [get] that hit) after the last touch of it. *)
Theorem put_full_evicts_least_recently_touched capacity c tr k v :
  reachable capacity c tr →
  keys c ≠ [] →
  size c = capacity_ c →
  ¬ resident k c →
  ∃ es kl vl c',
    entries c = es ++ [(kl, vl)] ∧
    (∀ k', resident k' c → k' ≠ kl → more_recent (touches tr) k' kl) ∧
    put k v c = Ok c' ∧
    entries c' = (k, v) :: es ∧
    ¬ resident kl c' ∧
    size c' = capacity_ c' ∧
    capacity_ c' = capacity_ c.
Proof.
  intros Hreach Hne Hfull Hk.
  destruct (reachable_inv _ _ _ Hreach) as (Hwf & [Hsorted _] & Hcap).
  destruct (put_absent _ _ v Hwf Hk)
    as [(Hlt & _)|[(_ & Hnil & _)|
        (_ & es & kl & vl & c' & Hes & Hput & Hwf' & Hcap' & Hes')]].
  { lia. }
  { exfalso. apply Hne. unfold keys, entries. by rewrite Hnil. }
  exists es, kl, vl, c'.
  assert (keys c = es.*1 ++ [kl]) as Hkeys.
  { unfold keys. by rewrite Hes, fmap_app. }
  pose proof (wf_keys _ Hwf) as Hnd. rewrite Hkeys in Hnd.
  apply NoDup_app in Hnd as (_ & Hdisj & _).
  split_and!; [done| |done..| | |done].
  - intros k' Hk' Hne'. rewrite Hkeys in Hsorted.
    apply (StronglySorted_app_1_elem_of _ _ _ _ _ Hsorted).
    + unfold resident in Hk'. rewrite Hkeys in Hk'.
      apply elem_of_app in Hk' as [?|?%list_elem_of_singleton]; done.
    + apply list_elem_of_singleton. done.
  - unfold resident, keys. rewrite Hes'. simpl.
    intros [->|Hin]%elem_of_cons.
    + apply Hk. unfold resident. rewrite Hkeys.
      apply elem_of_app. right. by apply list_elem_of_singleton.
    + apply (Hdisj _ Hin). by apply list_elem_of_singleton.
  - rewrite Hcap', <-Hfull, !size_entries, Hes, Hes', length_app.
    simpl. f_equal. lia.
Qed.

(** C2.  A cache built with a capacity of at least one answers every
    sequence of calls, and after each of them (after the [n] first calls,
    for every [n]) its size is at most the capacity it was built with,
    which it still has. *)
Theorem size_never_exceeds_capacity capacity (ops : list (call K V)) n :
  (1 ≤ capacity)%N →
  ∃ c tr, exec (take n ops) (new capacity) [] = Ok (c, tr) ∧
    (size c ≤ capacity)%N ∧ capacity_ c = capacity.
Proof.
  intros Hcap.
  destruct (exec_total (take n ops) (new capacity) [])
    as [[c tr] Hexec]; [apply wf_new|done|].
  exists c, tr. split; [done|].
  destruct (reachable_inv capacity c tr) as (Hwf & _ & Heq); [by eexists|].
  split; [|done]. rewrite <-Heq. apply (wf_size _ Hwf).
Qed.

(** C3.  On a reachable state, [get] of a resident key returns the value
    stored under that key and moves the entry of the key to the front of
    the list, keeping the other entries in their order; no stored value,
    the size, the set of resident keys, the map and the capacity all stay
    as they were.  The node moved is the one the map designates for the
    key: afterwards it is the first node of the list. *)
Theorem get_hit_moves_key_to_front capacity c tr k :
  reachable capacity c tr →
  resident k c →
  ∃ v es1 es2 c',
    entries c = es1 ++ (k, v) :: es2 ∧
    stored k c = Some v ∧
    get k c = Ok (c', Some v) ∧
    entries c' = (k, v) :: es1 ++ es2 ∧
    (∀ k', stored k' c' = stored k' c) ∧
    size c' = size c ∧
    (∀ k', resident k' c' ↔ resident k' c) ∧
    items_map_ c' = items_map_ c ∧
    capacity_ c' = capacity_ c ∧
    ∃ it, items_map_ c !! k = Some it ∧
      begin (items_list_ c') = it ∧
      deref it (items_list_ c') = Ok (k, v).
Proof.
  intros Hreach Hres.
  destruct (reachable_inv _ _ _ Hreach) as (Hwf & _ & _).
  destruct (resident_at _ _ Hres) as (n & l1 & v & l2 & Hl).
  destruct (wf_at _ _ _ _ _ _ Hwf Hl) as (Hit & _).
  exists v, (l1.*2), (l2.*2), (with_list ((n, (k, v)) :: l1 ++ l2) c).
  assert (entries c = l1.*2 ++ (k, v) :: l2.*2) as Hes.
  { unfold entries. by rewrite Hl, fmap_app. }
  assert (entries (with_list ((n, (k, v)) :: l1 ++ l2) c) =
          (k, v) :: l1.*2 ++ l2.*2) as Hes'.
  { rewrite entries_with_list. by rewrite fmap_cons, fmap_app. }
  assert (entries (with_list ((n, (k, v)) :: l1 ++ l2) c) ≡ₚ entries c)
    as Hp by (rewrite Hes, Hes'; apply Permutation_middle).
  split_and!; [done| |by apply get_hit|done| | | |done..|].
  - apply stored_Some; [apply (wf_keys _ Hwf)|].
    rewrite Hes. apply elem_of_app. right. left.
  - apply stored_perm; [apply (wf_keys _ Hwf)|done].
  - by rewrite !size_entries, Hp.
  - intros k'. unfold resident, keys. by rewrite Hp.
  - exists (It n). split_and!; [done..|]. simpl. by rewrite decide_True.
Qed.

(** C4.  On a reachable state, [put] of a resident key with a value [v2]
    stores [v2] under that key in the entry the key already has, moves
    this entry to the front of the list and keeps the other entries, with
    their values, in their order; the size, the set of resident keys, the
    map and the capacity stay as they were, so nothing is evicted.  The
    write goes through the iterator the map keeps for the key, whose node
    is afterwards the first of the list. *)
Theorem put_resident_overwrites_in_place capacity c tr k v2 :
  reachable capacity c tr →
  resident k c →
  ∃ v es1 es2 c',
    entries c = es1 ++ (k, v) :: es2 ∧
    put k v2 c = Ok c' ∧
    entries c' = (k, v2) :: es1 ++ es2 ∧
    stored k c' = Some v2 ∧
    (∀ k', k' ≠ k → stored k' c' = stored k' c) ∧
    size c' = size c ∧
    (∀ k', resident k' c' ↔ resident k' c) ∧
    items_map_ c' = items_map_ c ∧
    capacity_ c' = capacity_ c ∧
    ∃ it, items_map_ c !! k = Some it ∧
      deref it (items_list_ c) = Ok (k, v) ∧
      begin (items_list_ c') = it ∧
      deref it (items_list_ c') = Ok (k, v2).
Proof.
  intros Hreach Hres.
  destruct (reachable_inv _ _ _ Hreach) as (Hwf & _ & _).
  destruct (resident_at _ _ Hres) as (n & l1 & v & l2 & Hl).
  destruct (wf_at _ _ _ _ _ _ Hwf Hl) as (Hit & Hn & _).
  pose proof (wf_overwrite _ _ _ _ v2 _ _ Hwf Hl) as Hwf'.
  exists v, (l1.*2), (l2.*2), (with_list ((n, (k, v2)) :: l1 ++ l2) c).
  assert (entries c = l1.*2 ++ (k, v) :: l2.*2) as Hes.
  { unfold entries. by rewrite Hl, fmap_app. }
  assert (entries (with_list ((n, (k, v2)) :: l1 ++ l2) c) =
          (k, v2) :: l1.*2 ++ l2.*2) as Hes'.
  { rewrite entries_with_list. by rewrite fmap_cons, fmap_app. }
  split_and!; [done|by eapply put_hit|done| | | | |done..|].
  - apply stored_Some; [apply (wf_keys _ Hwf')|]. rewrite Hes'. left.
  - intros k' Hne. apply option_eq. intros x.
    rewrite !stored_Some by (apply (wf_keys _ Hwf) || apply (wf_keys _ Hwf')).
    rewrite Hes, Hes'. rewrite elem_of_cons, !elem_of_app, elem_of_cons.
    split.
    + intros [[= ? ?]|[?|?]]; [done|by left|by right; right].
    + intros [?|[[= ? ?]|?]]; [by right; left|done|by right; right].
  - rewrite !size_entries, Hes, Hes'. simpl.
    rewrite !length_app. simpl. f_equal. lia.
  - intros k'. unfold resident, keys. rewrite Hes, Hes'.
    rewrite fmap_cons, !fmap_app, fmap_cons. simpl.
    rewrite elem_of_cons, !elem_of_app, elem_of_cons. tauto.
  - exists (It n). split_and!; [done| |done|].
    + simpl. by rewrite Hl, find_node_middle.
    + simpl. by rewrite decide_True.
Qed.

(** C5.  On a reachable state, [get] of a key that is not resident
    returns the disengaged optional and the state it leaves is the state
    it found: list, map and capacity are the same. *)
Theorem get_miss_leaves_state capacity c tr k :
  reachable capacity c tr →
  ¬ resident k c →
  get k c = Ok (c, None).
Proof.
  intros Hreach Hk.
  destruct (reachable_inv _ _ _ Hreach) as (Hwf & _ & _).
  apply get_miss. by apply wf_absent.
Qed.

(** C6.  On a reachable state, [exists] answers [true] exactly for the
    resident keys and the call leaves the state as it found it.  So a run
    of calls and the same run without its [exists] calls end in the same
    state, after the same replies to the other calls. *)
Theorem exists_reads_only capacity c tr k :
  reachable capacity c tr →
  (exists_ k c = true ↔ resident k c) ∧
  step (Exists k) c = Ok (c, RExists (exists_ k c)) ∧
  ∀ ops,
    exec (without_exists ops) c (without_exists_replies tr) =
    (λ p, (p.1, without_exists_replies p.2)) <$> exec ops c tr.
Proof.
  intros Hreach.
  destruct (reachable_inv _ _ _ Hreach) as (Hwf & _ & _).
  split_and!.
  - unfold exists_. rewrite bool_decide_eq_true. symmetry.
    by apply wf_resident.
  - done.
  - intros ops. apply exec_without_exists.
Qed.

(** C7.  A cache built with a capacity of at least one answers every
    sequence of calls, and after each of them the map and the list hold
    the same keys, the map has as many keys as the list has entries, at
    most the capacity, and the iterator the map keeps for a key
    designates a node of the list that holds this key. *)
Theorem index_and_list_agree capacity (ops : list (call K V)) n :
  (1 ≤ capacity)%N →
  ∃ c tr, exec (take n ops) (new capacity) [] = Ok (c, tr) ∧
    dom (items_map_ c) = list_to_set (keys c) ∧
    N.of_nat (base.size (items_map_ c)) = size c ∧
    (size c ≤ capacity)%N ∧
    ∀ k it, items_map_ c !! k = Some it →
      ∃ v, deref it (items_list_ c) = Ok (k, v).
Proof.
  intros Hcap.
  destruct (exec_total (take n ops) (new capacity) [])
    as [[c tr] Hexec]; [apply wf_new|done|].
  exists c, tr. split; [done|].
  destruct (reachable_inv capacity c tr) as (Hwf & _ & Heq); [by eexists|].
  assert (dom (items_map_ c) = list_to_set (keys c)) as Hdom.
  { apply set_eq. intros k. rewrite elem_of_dom, elem_of_list_to_set.
    symmetry. by apply wf_resident. }
  split_and!; [done| | |].
  - rewrite <-size_dom, Hdom, size_list_to_set by apply (wf_keys _ Hwf).
    rewrite size_entries. unfold keys. by rewrite length_fmap.
  - rewrite <-Heq. apply (wf_size _ Hwf).
  - intros k it Hit.
    destruct (wf_locate _ _ _ Hwf Hit) as (m & l1 & v & l2 & -> & Hl & Hm).
    exists v. simpl. by rewrite Hl, find_node_middle.
Qed.

(** C10.  On a state reached by a cache built with a capacity of at least
    one, the eviction block of [put] is entered only with a list on which
    [back] and [pop_back] are defined, and [put] returns.  On a state
    reached by a cache built with capacity zero, every [put] calls [back]
    on an empty list. *)
Theorem eviction_reads_nonempty_list capacity c tr k v :
  reachable capacity c tr →
  ((1 ≤ capacity)%N →
     ((capacity_ c <=? StdList.size (items_list_ c))%N = true →
        items_list_ c ≠ [] ∧
        is_Ok (back (items_list_ c)) ∧ is_Ok (pop_back (items_list_ c))) ∧
     is_Ok (put k v c)) ∧
  (capacity = 0%N → put k v c = Undefined BackOnEmpty).
Proof.
  intros Hreach.
  destruct (reachable_inv _ _ _ Hreach) as (Hwf & _ & Hcap).
  split.
  - intros Hpos. split.
    + intros Hfull%N.leb_le.
      destruct (size_pos_snoc (items_list_ c)) as (l & m & e & Hl); [lia|].
      rewrite Hl. split_and!.
      * by destruct l.
      * rewrite back_snoc. by eexists.
      * rewrite pop_back_snoc. by eexists.
    + destruct (step_total c (Put k v) Hwf) as [[c' r] Hstep]; [lia|].
      simpl in Hstep. destruct (put k v c) as [c1|u]; [by eexists|done].
  - intros ->. pose proof (wf_size _ Hwf) as Hsz.
    assert (items_list_ c = []) as Hnil.
    { unfold size, StdList.size in Hsz.
      destruct (items_list_ c); [done|simpl in Hsz; lia]. }
    apply put_full_empty; [|lia|done].
    apply wf_absent; [done|]. unfold resident, keys, entries.
    rewrite Hnil. by intros ?%elem_of_nil.
Qed.
End properties.

(** ** The demonstration program, and the properties at work on it *)

Section demonstration.
Import Example.
Open Scope Z_scope.
Open Scope string_scope.
Open Scope list_scope.

(** C8.  On a cache of capacity 3, after [put(1,"one")], [put(2,"two")]
    and [put(3,"three")] the keys are, most recently used first, 3, 2, 1;
    [get(2)] then returns "two" and the order becomes 2, 3, 1;
    [put(4,"four")] then evicts key 1 and the order becomes 4, 2, 3;
    after that [exists(1)] is false and [exists(3)] is true. *)
Theorem demo_scenario :
  run_replies (take 3 main) 3 = Ok ([3; 2; 1], [RPut; RPut; RPut]) ∧
  run_replies (take 4 main) 3 =
    Ok ([2; 3; 1], [RPut; RPut; RPut; RGet (Some "two")]) ∧
  run_replies (take 5 main) 3 =
    Ok ([4; 2; 3], [RPut; RPut; RPut; RGet (Some "two"); RPut]) ∧
  run_replies main 3 =
    Ok ([4; 2; 3],
        [RPut; RPut; RPut; RGet (Some "two"); RPut;
         RExists false; RExists true]).
Proof. by vm_compute. Qed.

(** [Main.cpp] prints "10" and leaves key 1 in front of key 2. *)
Lemma main_cpp_run :
  run_replies main_cpp 3 = Ok ([1; 2], [RPut; RPut; RGet (Some "10")]).
Proof. by vm_compute. Qed.

Lemma loaded_reachable : reachable 3 loaded loaded_transcript.
Proof. exists loads. vm_compute. reflexivity. Qed.

Lemma put_full_evicts_least_recently_touched_witness :
  reachable 3 loaded loaded_transcript ∧
  keys loaded ≠ [] ∧
  size loaded = capacity_ loaded ∧
  ¬ resident 4 loaded ∧
  ∃ es kl vl c',
    entries loaded = es ++ [(kl, vl)] ∧
    (∀ k', resident k' loaded → k' ≠ kl →
       more_recent (touches loaded_transcript) k' kl) ∧
    put 4 "four" loaded = Ok c' ∧
    entries c' = (4, "four") :: es ∧
    ¬ resident kl c' ∧
    size c' = capacity_ c' ∧
    capacity_ c' = capacity_ loaded.
Proof.
  assert (keys loaded ≠ []) as Hne by (by vm_compute).
  assert (size loaded = capacity_ loaded) as Hfull by (by vm_compute).
  assert (¬ resident 4 loaded) as Hk
    by (apply (bool_decide_unpack _); by vm_compute).
  split_and!; [apply loaded_reachable|done..|].
  exact (put_full_evicts_least_recently_touched
           3 loaded loaded_transcript 4 "four"
           loaded_reachable Hne Hfull Hk).
Defined.

Lemma size_never_exceeds_capacity_witness :
  (1 ≤ 3)%N ∧
  ∃ c tr, exec (take 5 main) (new 3) [] = Ok (c, tr) ∧
    (size c ≤ 3)%N ∧ capacity_ c = 3%N.
Proof.
  assert (1 ≤ 3)%N as Hcap by lia.
  split; [done|]. exact (size_never_exceeds_capacity 3 main 5 Hcap).
Defined.

Lemma get_hit_moves_key_to_front_witness :
  reachable 3 loaded loaded_transcript ∧
  resident 2 loaded ∧
  ∃ v es1 es2 c',
    entries loaded = es1 ++ (2, v) :: es2 ∧
    stored 2 loaded = Some v ∧
    get 2 loaded = Ok (c', Some v) ∧
    entries c' = (2, v) :: es1 ++ es2 ∧
    (∀ k', stored k' c' = stored k' loaded) ∧
    size c' = size loaded ∧
    (∀ k', resident k' c' ↔ resident k' loaded) ∧
    items_map_ c' = items_map_ loaded ∧
    capacity_ c' = capacity_ loaded ∧
    ∃ it, items_map_ loaded !! 2 = Some it ∧
      begin (items_list_ c') = it ∧
      deref it (items_list_ c') = Ok (2, v).
Proof.
  assert (resident 2 loaded) as Hk
    by (apply (bool_decide_unpack _); by vm_compute).
  split_and!; [apply loaded_reachable|done|].
  exact (get_hit_moves_key_to_front
           3 loaded loaded_transcript 2 loaded_reachable Hk).
Defined.

Lemma put_resident_overwrites_in_place_witness :
  reachable 3 loaded loaded_transcript ∧
  resident 2 loaded ∧
  ∃ v es1 es2 c',
    entries loaded = es1 ++ (2, v) :: es2 ∧
    put 2 "deux" loaded = Ok c' ∧
    entries c' = (2, "deux") :: es1 ++ es2 ∧
    stored 2 c' = Some "deux" ∧
    (∀ k', k' ≠ 2 → stored k' c' = stored k' loaded) ∧
    size c' = size loaded ∧
    (∀ k', resident k' c' ↔ resident k' loaded) ∧
    items_map_ c' = items_map_ loaded ∧
    capacity_ c' = capacity_ loaded ∧
    ∃ it, items_map_ loaded !! 2 = Some it ∧
      deref it (items_list_ loaded) = Ok (2, v) ∧
      begin (items_list_ c') = it ∧
      deref it (items_list_ c') = Ok (2, "deux").
Proof.
  assert (resident 2 loaded) as Hk
    by (apply (bool_decide_unpack _); by vm_compute).
  split_and!; [apply loaded_reachable|done|].
  exact (put_resident_overwrites_in_place
           3 loaded loaded_transcript 2 "deux" loaded_reachable Hk).
Defined.

Lemma get_miss_leaves_state_witness :
  reachable 3 loaded loaded_transcript ∧
  ¬ resident 4 loaded ∧
  get 4 loaded = Ok (loaded, None).
Proof.
  assert (¬ resident 4 loaded) as Hk
    by (apply (bool_decide_unpack _); by vm_compute).
  split_and!; [apply loaded_reachable|done|].
  exact (get_miss_leaves_state
           3 loaded loaded_transcript 4 loaded_reachable Hk).
Defined.

Lemma exists_reads_only_witness :
  reachable 3 loaded loaded_transcript ∧
  (exists_ 1 loaded = true ↔ resident 1 loaded) ∧
  step (Exists 1) loaded = Ok (loaded, RExists (exists_ 1 loaded)) ∧
  ∀ ops,
    exec (without_exists ops) loaded
      (without_exists_replies loaded_transcript) =
    (λ p, (p.1, without_exists_replies p.2)) <$>
      exec ops loaded loaded_transcript.
Proof.
  split; [apply loaded_reachable|].
  exact (exists_reads_only 3 loaded loaded_transcript 1 loaded_reachable).
Defined.

Lemma index_and_list_agree_witness :
  (1 ≤ 3)%N ∧
  ∃ c tr, exec (take 5 main) (new 3) [] = Ok (c, tr) ∧
    dom (items_map_ c) = list_to_set (keys c) ∧
    N.of_nat (base.size (items_map_ c)) = size c ∧
    (size c ≤ 3)%N ∧
    ∀ k it, items_map_ c !! k = Some it →
      ∃ v, deref it (items_list_ c) = Ok (k, v).
Proof.
  assert (1 ≤ 3)%N as Hcap by lia.
  split; [done|]. exact (index_and_list_agree 3 main 5 Hcap).
Defined.

Lemma eviction_reads_nonempty_list_witness :
  (reachable 3 loaded loaded_transcript ∧
   (1 ≤ 3)%N ∧
   (capacity_ loaded <=? StdList.size (items_list_ loaded))%N = true ∧
   (items_list_ loaded ≠ [] ∧
    is_Ok (back (items_list_ loaded)) ∧
    is_Ok (pop_back (items_list_ loaded))) ∧
   is_Ok (put 4 "four" loaded)) ∧
  (reachable (K:=Z) (V:=string) 0 (new 0) [] ∧
   put 1 "one" (new 0) = Undefined BackOnEmpty).
Proof.
  assert (1 ≤ 3)%N as Hcap by lia.
  assert ((capacity_ loaded <=? StdList.size (items_list_ loaded))%N = true)
    as Hfull by (by vm_compute).
  assert (reachable (K:=Z) (V:=string) 0 (new 0) []) as Hzero
    by (by exists []).
  split.
  - destruct (eviction_reads_nonempty_list
                3 loaded loaded_transcript 4 "four" loaded_reachable)
      as [Hpos _].
    destruct (Hpos Hcap) as [Hevict Hput].
    destruct (Hevict Hfull) as (Hne & Hback & Hpop).
    split_and!; [apply loaded_reachable|done..].
  - split; [done|].
    destruct (eviction_reads_nonempty_list 0 (new 0) [] 1 "one" Hzero)
      as [_ Hub].
    by apply Hub.
Defined.
End demonstration.


(** ** Further properties of the class *)

(** *** Lists of keys and of entries *)

Section key_lists.
Context {K : Type} `{Countable K} {V : Type}.
Implicit Types (k x : K) (ks M : list K) (es : list (K * V)).

Lemma filter_ne_absent k ks : k ∉ ks → filter (λ x, x ≠ k) ks = ks.
Proof.
  induction ks as [|x ks IH]; [done|].
  intros [Hx Hks]%not_elem_of_cons.
  rewrite filter_cons, decide_True by done. by rewrite IH.
Qed.

Lemma others_keys k es : (others k es).*1 = filter (λ x, x ≠ k) (es.*1).
Proof.
  unfold others. induction es as [|[x v] es IH]; [done|].
  rewrite fmap_cons, !filter_cons. simpl.
  case_decide; [rewrite fmap_cons|]; by rewrite IH.
Qed.

Lemma others_absent k es : k ∉ es.*1 → others k es = es.
Proof.
  unfold others. induction es as [|[x v] es IH]; [done|].
  rewrite fmap_cons. intros [Hx Hks]%not_elem_of_cons.
  rewrite filter_cons, decide_True by done. by rewrite IH.
Qed.

Lemma others_middle k v es1 es2 :
  k ∉ es1.*1 → k ∉ es2.*1 → others k (es1 ++ (k, v) :: es2) = es1 ++ es2.
Proof.
  intros H1 H2. unfold others. rewrite filter_app, filter_cons. simpl.
  rewrite decide_False by (by intros []).
  fold (others k es1) (others k es2). by rewrite !others_absent.
Qed.

(** Cutting a duplicate-free list one element further before a key is
    removed from it loses nothing. *)
Lemma take_filter_take k M n :
  NoDup M →
  take n (filter (λ x, x ≠ k) (take (S n) M)) =
  take n (filter (λ x, x ≠ k) M).
Proof.
  revert n. induction M as [|x M IH]; intros n Hnd; [done|].
  apply NoDup_cons in Hnd as [Hx Hnd]. simpl. rewrite !filter_cons.
  case_decide as Hk.
  - destruct n as [|n]; [done|]. simpl. by rewrite IH.
  - subst x.
    rewrite !filter_ne_absent; [by rewrite take_idemp|done|].
    intros Hin. apply Hx. by eapply elem_of_sublist, sublist_take.
Qed.

Lemma elem_of_mru x ks : x ∈ mru ks ↔ x ∈ ks.
Proof.
  induction ks as [|k ks IH]; [done|]. simpl.
  rewrite !elem_of_cons, list_elem_of_filter, IH.
  destruct (decide (x = k)); tauto.
Qed.

Lemma NoDup_mru ks : NoDup (mru ks).
Proof.
  induction ks as [|k ks IH]; simpl; [constructor|].
  apply NoDup_cons. split; [|by apply NoDup_filter].
  rewrite list_elem_of_filter. by intros [? _].
Qed.

Lemma length_mru ks : length (mru ks) = base.size (list_to_set ks : gset K).
Proof.
  rewrite <-(size_list_to_set (C:=gset K) (mru ks)) by apply NoDup_mru.
  f_equal. apply set_eq. intros x.
  by rewrite !elem_of_list_to_set, elem_of_mru.
Qed.
End key_lists.

(** *** Runs, one call at a time *)

Section reachability.
Context {K : Type} `{Countable K} {V : Type}.
Implicit Types (c : LRUCache K V) (k : K) (v : V).
Implicit Types (o : call K V) (r : reply V) (tr : list (call K V * reply V)).

Lemma exec_app ops1 ops2 c tr :
  exec (ops1 ++ ops2) c tr =
  exec ops1 c tr ≫= λ p, exec ops2 p.1 p.2.
Proof.
  revert c tr. induction ops1 as [|o ops1 IH]; intros c tr; [done|].
  simpl. destruct (step o c) as [[c1 r]|u]; simpl; [|done]. apply IH.
Qed.

Lemma reachable_new capacity : reachable (K:=K) (V:=V) capacity (new capacity) [].
Proof. by exists []. Qed.

Lemma reachable_step capacity c tr o c' r :
  reachable capacity c tr → step o c = Ok (c', r) →
  reachable capacity c' ((o, r) :: tr).
Proof.
  intros [ops Hexec] Hstep. exists (ops ++ [o]).
  rewrite exec_app, Hexec. simpl. by rewrite Hstep.
Qed.

(** A property of the fresh cache that every returning call preserves
    holds of every reachable state. *)
Lemma reachable_invariant capacity
    (P : LRUCache K V → list (call K V * reply V) → Prop) :
  P (new capacity) [] →
  (∀ c tr o c' r,
     reachable capacity c tr → P c tr → step o c = Ok (c', r) →
     P c' ((o, r) :: tr)) →
  ∀ c tr, reachable capacity c tr → P c tr.
Proof.
  intros Hnew Hstep c tr [ops Hexec]. revert c tr Hexec.
  induction ops as [|o ops IH] using rev_ind; intros c tr.
  - by intros [= <- <-].
  - rewrite exec_app.
    destruct (exec ops (new capacity) []) as [[c1 tr1]|u] eqn:Hexec; [|done].
    simpl. destruct (step o c1) as [[c2 r]|u] eqn:Hs; simpl; [|done].
    intros [= <- <-]. apply (Hstep c1); [by exists ops|by apply IH|done].
Qed.
End reachability.

(** *** The entries after a call *)

Section effects.
Context {K : Type} `{Countable K} {V : Type}.
Implicit Types (c : LRUCache K V) (l : StdList.t (K * V)) (k : K) (v : V).
Implicit Types (o : call K V) (r : reply V) (tr : list (call K V * reply V)).

Lemma with_list_same c : with_list (items_list_ c) c = c.
Proof. by destruct c. Qed.

Lemma get_front c n k v l :
  wf c → items_list_ c = (n, (k, v)) :: l → get k c = Ok (c, Some v).
Proof.
  intros Hwf Hl. rewrite (get_hit c n k v [] l Hwf Hl). simpl.
  by rewrite <-Hl, with_list_same.
Qed.

Lemma put_front c n k v l :
  wf c → items_list_ c = (n, (k, v)) :: l → put k v c = Ok c.
Proof.
  intros Hwf Hl. rewrite (put_hit c n k v v [] l Hwf Hl). simpl.
  by rewrite <-Hl, with_list_same.
Qed.

Lemma entries_front c k v es :
  entries c = (k, v) :: es → ∃ n l, items_list_ c = (n, (k, v)) :: l.
Proof.
  unfold entries. destruct (items_list_ c) as [|[n e] l]; [done|].
  rewrite fmap_cons. intros [= -> _]. eauto.
Qed.

Lemma stored_absent c k : wf c → ¬ resident k c → stored k c = None.
Proof.
  intros Hwf Hk. apply eq_None_not_Some. intros [v Hv].
  apply stored_Some in Hv; [|apply (wf_keys _ Hwf)].
  apply Hk. unfold resident, keys. apply list_elem_of_fmap. by exists (k, v).
Qed.

Lemma get_entries c k c' (ov : option V) :
  wf c → get k c = Ok (c', ov) →
  ov = stored k c ∧
  match ov with
  | Some v => entries c' = (k, v) :: others k (entries c)
  | None => c' = c
  end.
Proof.
  intros Hwf. destruct (decide (resident k c)) as [Hres|Hres].
  - destruct (resident_at _ _ Hres) as (n & l1 & v & l2 & Hl).
    destruct (wf_at _ _ _ _ _ _ Hwf Hl) as (_ & _ & Hk1 & Hk2).
    rewrite (get_hit _ _ _ _ _ _ Hwf Hl). intros [= <- <-].
    assert (entries c = l1.*2 ++ (k, v) :: l2.*2) as Hes.
    { unfold entries. by rewrite Hl, fmap_app. }
    split.
    + symmetry. apply stored_Some; [apply (wf_keys _ Hwf)|].
      rewrite Hes. apply elem_of_app. right. left.
    + rewrite entries_with_list, fmap_cons, fmap_app, Hes.
      by rewrite others_middle.
  - rewrite get_miss by (by apply wf_absent). intros [= <- <-].
    split; [|done]. symmetry. by apply stored_absent.
Qed.

(** [put] in one equation: the new entry in front of the entries of the
    other keys, cut to the capacity. *)
Lemma put_entries c k v c' :
  wf c → put k v c = Ok c' →
  entries c' =
  (k, v) :: take (N.to_nat (capacity_ c) - 1) (others k (entries c)).
Proof.
  intros Hwf. pose proof (wf_size _ Hwf) as Hsz.
  rewrite size_entries in Hsz.
  destruct (decide (resident k c)) as [Hres|Hres].
  - destruct (resident_at _ _ Hres) as (n & l1 & v0 & l2 & Hl).
    destruct (wf_at _ _ _ _ _ _ Hwf Hl) as (_ & _ & Hk1 & Hk2).
    rewrite (put_hit _ _ _ _ v _ _ Hwf Hl). intros [= <-].
    assert (entries c = l1.*2 ++ (k, v0) :: l2.*2) as Hes.
    { unfold entries. by rewrite Hl, fmap_app. }
    rewrite Hes, length_app in Hsz. simpl in Hsz.
    rewrite entries_with_list, fmap_cons, fmap_app, Hes.
    rewrite others_middle by done. simpl.
    rewrite take_ge; [done|]. rewrite length_app. lia.
  - assert (others k (entries c) = entries c) as Hoth
      by (by apply others_absent).
    destruct (put_absent _ _ v Hwf Hres)
      as [(Hlt & c1 & -> & _ & _ & Hes)|
          [(_ & _ & ->)|(Hle & es & kl & vl & c1 & Hes0 & -> & _ & _ & Hes)]];
      [|done|]; intros [= <-]; rewrite Hes, Hoth.
    + rewrite size_entries in Hlt. rewrite take_ge; [done|]. lia.
    + rewrite size_entries in Hle. rewrite Hes0 in *.
      rewrite length_app in Hsz, Hle. simpl in *.
      rewrite take_app_length'; [done|]. lia.
Qed.

(** The keys after a call that touches [k]. *)
Lemma step_keys c o c' r :
  wf c → step o c = Ok (c', r) →
  keys c' =
  match touched (o, r) with
  | [] => keys c
  | k :: _ =>
      k :: take (N.to_nat (capacity_ c) - 1) (filter (λ x, x ≠ k) (keys c))
  end.
Proof.
  intros Hwf. pose proof (wf_size _ Hwf) as Hsz.
  rewrite size_entries in Hsz. destruct o as [k|k v|k|]; simpl.
  - destruct (get k c) as [[c1 r1]|u] eqn:Hget; simpl; [|done].
    intros [= <- <-].
    destruct (get_entries _ _ _ _ Hwf Hget) as [_ Hes].
    destruct r1 as [v|]; [|by subst c1].
    unfold keys. rewrite Hes, fmap_cons, others_keys. simpl.
    rewrite take_ge; [done|].
    pose proof (length_filter (λ x, x ≠ k) (entries c).*1) as Hlen.
    assert (k ∈ (entries c).*1) as Hin.
    { assert (is_Some (stored k c)) as [v' Hv'].
      { destruct (get_entries _ _ _ _ Hwf Hget) as [<- _]. eauto. }
      apply stored_Some in Hv'; [|apply (wf_keys _ Hwf)].
      apply list_elem_of_fmap. by exists (k, v'). }
    apply (length_filter_lt (λ x, x ≠ k)) in Hin; [|by intros []].
    rewrite length_fmap in Hin. lia.
  - destruct (put k v c) as [c1|u] eqn:Hput; simpl; [|done].
    intros [= <- <-]. unfold keys.
    rewrite (put_entries _ _ _ _ Hwf Hput), fmap_cons, fmap_take.
    by rewrite others_keys.
  - by intros [= <- <-].
  - by intros [= <- <-].
Qed.
End effects.

(** *** What the history of a run determines *)

Section history_facts.
Context {K : Type} `{Countable K} {V : Type}.
Implicit Types (c : LRUCache K V) (k : K) (v : V).
Implicit Types (o : call K V) (r : reply V) (tr : list (call K V * reply V)).

Lemma step_most_recent capacity c tr o c' r :
  reachable capacity c tr → holds_most_recent capacity c tr →
  step o c = Ok (c', r) → holds_most_recent capacity c' ((o, r) :: tr).
Proof.
  intros Hreach Hinv Hstep.
  destruct (reachable_inv _ _ _ Hreach) as (Hwf & _ & Hcap).
  destruct (step_inv _ _ _ _ Hwf Hstep) as (Hwf' & Hcap' & Ht).
  unfold holds_most_recent in *.
  rewrite (step_keys _ _ _ _ Hwf Hstep), touches_cons.
  destruct (touched (o, r)) as [|k ks]; [done|].
  destruct Ht as (-> & ks' & Hks & _). simpl. rewrite Hcap.
  destruct (N.to_nat capacity) as [|n] eqn:Hn.
  - pose proof (wf_size _ Hwf') as Hsz. rewrite size_entries in Hsz.
    unfold keys in Hks. destruct (entries c'); [done|]. simpl in Hsz. lia.
  - simpl. rewrite Nat.sub_0_r, Hinv. f_equal.
    apply take_filter_take, NoDup_mru.
Qed.

Lemma step_latest_values c tr o c' r :
  wf c → holds_latest_values c tr →
  step o c = Ok (c', r) → holds_latest_values c' ((o, r) :: tr).
Proof.
  intros Hwf Hinv. destruct o as [k0|k0 v0|k0|]; simpl.
  - destruct (get k0 c) as [[c1 ov]|u] eqn:Hget; simpl; [|done].
    intros [= <- <-] k v Hin. simpl.
    destruct (get_entries _ _ _ _ Hwf Hget) as [Hov Hes].
    destruct ov as [v1|]; [|subst c1; by apply Hinv].
    rewrite Hes in Hin. apply Hinv.
    apply elem_of_cons in Hin as [[= -> ->]|Hin].
    + apply stored_Some; [apply (wf_keys _ Hwf)|done].
    + by apply list_elem_of_filter in Hin as [_ ?].
  - destruct (put k0 v0 c) as [c1|u] eqn:Hput; simpl; [|done].
    intros [= <- <-] k v Hin. simpl.
    rewrite (put_entries _ _ _ _ Hwf Hput) in Hin.
    apply elem_of_cons in Hin as [[= -> ->]|Hin].
    + by case_decide.
    + eapply elem_of_sublist in Hin; [|apply sublist_take].
      apply list_elem_of_filter in Hin as [Hne Hin]. simpl in Hne.
      case_decide; [by subst k0|]. by apply Hinv.
  - intros [= <- <-] k v Hin. simpl. by apply Hinv.
  - intros [= <- <-] k v Hin. simpl. by apply Hinv.
Qed.

Lemma put_keys_cons o r tr :
  put_keys ((o, r) :: tr) = put_key (o, r) ++ put_keys tr.
Proof. done. Qed.

Lemma step_touched_were_put capacity c tr o c' r :
  reachable capacity c tr → touched_were_put tr →
  step o c = Ok (c', r) → touched_were_put ((o, r) :: tr).
Proof.
  intros Hreach Hinv Hstep k.
  destruct (reachable_inv _ _ _ Hreach) as (Hwf & [_ Hres] & _).
  rewrite touches_cons, put_keys_cons. specialize (Hinv k).
  destruct o as [k0|k0 v0|k0|]; simpl in Hstep.
  - destruct (get k0 c) as [[c1 ov]|u] eqn:Hget; simpl in Hstep; [|done].
    injection Hstep as <- <-. destruct ov as [v1|]; [|done].
    unfold put_key. simpl. rewrite elem_of_cons, Hinv. split; [|by right].
    intros [->|Hin]; [|done]. apply Hinv, Hres.
    destruct (get_entries _ _ _ _ Hwf Hget) as [Hov _].
    symmetry in Hov. apply stored_Some in Hov; [|apply (wf_keys _ Hwf)].
    unfold resident, keys. apply list_elem_of_fmap. by exists (k0, v1).
  - destruct (put k0 v0 c) as [c1|u]; simpl in Hstep; [|done].
    injection Hstep as <- <-. unfold put_key. simpl.
    by rewrite !elem_of_cons, Hinv.
  - by injection Hstep as <- <-.
  - by injection Hstep as <- <-.
Qed.
End history_facts.

(** *** Properties of [get] and [put] beyond the specification *)

Section further.
Context {K : Type} `{Countable K} {V : Type}.
Implicit Types (c : LRUCache K V) (k : K) (v : V).
Implicit Types (o : call K V) (r : reply V) (tr : list (call K V * reply V)).

(** X1.  On a reachable state of a cache built with a capacity of at least
    one, [put] returns, and the entries it leaves are the new entry followed
    by the entries of the other keys, in their order, cut so that the whole
    has at most [capacity] entries. *)
Theorem put_fronts_and_cuts capacity c tr k v :
  reachable capacity c tr → (1 ≤ capacity)%N →
  ∃ c', put k v c = Ok c' ∧
    entries c' = (k, v) :: take (N.to_nat capacity - 1) (others k (entries c)).
Proof.
  intros Hreach Hpos.
  destruct (reachable_inv _ _ _ Hreach) as (Hwf & _ & Hcap).
  destruct (step_total c (Put k v) Hwf) as [[c' r] Hstep]; [lia|].
  simpl in Hstep. destruct (put k v c) as [c1|u] eqn:Hput; [|done].
  exists c1. split; [done|]. rewrite <-Hcap. by apply put_entries.
Qed.

(** X2.  The keys of a reachable state are the distinct keys touched so
    far, the latest touched first, cut to the capacity: the cache holds
    exactly the [capacity] most recently touched keys. *)
Theorem holds_most_recently_touched capacity c tr :
  reachable capacity c tr →
  keys c = take (N.to_nat capacity) (mru (touches tr)).
Proof.
  intros Hreach.
  apply (reachable_invariant capacity (holds_most_recent capacity));
    [|apply step_most_recent|done].
  unfold holds_most_recent. simpl. by rewrite take_nil.
Qed.

(** X3.  On a reachable state [get] returns; for a resident key its reply
    is the value of the latest [put] of that key in the run, for any other
    key it is the disengaged optional. *)
Theorem get_returns_latest_put capacity c tr k :
  reachable capacity c tr →
  ∃ c', get k c =
        Ok (c', if decide (resident k c) then last_put k tr else None).
Proof.
  intros Hreach.
  destruct (reachable_inv _ _ _ Hreach) as (Hwf & _ & _).
  assert (holds_latest_values c tr) as Hinv.
  { apply (reachable_invariant capacity (λ c tr, holds_latest_values c tr));
      [by intros ? ? ?%elem_of_nil| |done].
    intros c1 tr1 o c2 r Hr1 Hinv1 Hstep.
    destruct (reachable_inv _ _ _ Hr1) as (Hwf1 & _ & _).
    by apply (step_latest_values c1). }
  case_decide as Hres.
  - destruct (resident_at _ _ Hres) as (n & l1 & v & l2 & Hl).
    eexists. rewrite (get_hit _ _ _ _ _ _ Hwf Hl). do 2 f_equal.
    symmetry. apply Hinv. unfold entries. rewrite Hl, fmap_app.
    apply elem_of_app. right. left.
  - exists c. apply get_miss. by apply wf_absent.
Qed.

(** X4.  On a reachable state of a cache built with a capacity of at least
    one, a [get] right after [put(k, v)] returns [v] and changes nothing:
    the key is already in front. *)
Theorem put_then_get capacity c tr k v :
  reachable capacity c tr → (1 ≤ capacity)%N →
  ∃ c', put k v c = Ok c' ∧ get k c' = Ok (c', Some v).
Proof.
  intros Hreach Hpos.
  destruct (reachable_inv _ _ _ Hreach) as (Hwf & _ & Hcap).
  destruct (step_total c (Put k v) Hwf) as [[c' r] Hstep]; [lia|].
  destruct (step_inv _ _ _ _ Hwf Hstep) as (Hwf' & _).
  simpl in Hstep. destruct (put k v c) as [c1|u] eqn:Hput; [|done].
  injection Hstep as <- <-. exists c1. split; [done|].
  destruct (entries_front _ _ _ _ (put_entries _ _ _ _ Hwf Hput))
    as (n & l & Hl).
  by eapply get_front.
Qed.

(** X5.  On a reachable state of a cache built with a capacity of at least
    one, every call returns and no call makes the cache smaller; the size
    grows, by one, exactly on a [put] of a key that is not resident while
    the size is below the capacity. *)
Theorem size_grows_only_by_new_key capacity c tr o :
  reachable capacity c tr → (1 ≤ capacity)%N →
  ∃ c' r, step o c = Ok (c', r) ∧
    size c' = (size c + growth capacity o c)%N.
Proof.
  intros Hreach Hpos.
  destruct (reachable_inv _ _ _ Hreach) as (Hwf & _ & Hcap).
  destruct (step_total c o Hwf) as [[c' r] Hstep]; [lia|].
  exists c', r. split; [done|]. rewrite !size_entries.
  destruct o as [k|k v|k|]; simpl in *.
  - destruct (get k c) as [[c1 ov]|u] eqn:Hget; simpl in Hstep; [|done].
    injection Hstep as <- <-.
    destruct (decide (resident k c)) as [Hres|Hres].
    + destruct (resident_at _ _ Hres) as (n & l1 & v & l2 & Hl).
      rewrite (get_hit _ _ _ _ _ _ Hwf Hl) in Hget. injection Hget as <- <-.
      rewrite entries_with_list. unfold entries. rewrite Hl.
      rewrite !length_fmap. simpl. rewrite !length_app. simpl. lia.
    + rewrite get_miss in Hget by (by apply wf_absent).
      injection Hget as <- <-. lia.
  - destruct (put k v c) as [c1|u] eqn:Hput; simpl in Hstep; [|done].
    injection Hstep as <- <-.
    destruct (decide (resident k c)) as [Hres|Hres].
    + destruct (resident_at _ _ Hres) as (n & l1 & v0 & l2 & Hl).
      rewrite (put_hit _ _ _ _ v _ _ Hwf Hl) in Hput. injection Hput as <-.
      rewrite entries_with_list. unfold entries. rewrite Hl.
      rewrite !length_fmap. simpl. rewrite !length_app. simpl. lia.
    + destruct (put_absent _ _ v Hwf Hres)
        as [(Hlt & c2 & Hput2 & _ & _ & Hes)|
            [(_ & _ & Hput2)|
             (Hle & es & kl & vl & c2 & Hes0 & Hput2 & _ & _ & Hes)]];
        rewrite Hput2 in Hput; [|done|]; injection Hput as <-.
      * rewrite decide_True by lia. rewrite Hes. simpl. lia.
      * rewrite decide_False by lia. rewrite Hes, Hes0, length_app.
        simpl. lia.
  - injection Hstep as <- <-. lia.
  - injection Hstep as <- <-. lia.
Qed.


(** X7.  On a reachable state of a cache built with a capacity of at least
    one, [put(k, v)] leaves the value stored under every other key as it
    is, except that the key at the back of the list is dropped when [k] is
    not resident and the cache is full. *)
Theorem put_keeps_other_values capacity c tr k v k' :
  reachable capacity c tr → (1 ≤ capacity)%N → k' ≠ k →
  ∃ c', put k v c = Ok c' ∧
    stored k' c' =
    if decide (¬ resident k c ∧ size c = capacity ∧ last (keys c) = Some k')
    then None else stored k' c.
Proof.
  intros Hreach Hpos Hne.
  destruct (reachable_inv _ _ _ Hreach) as (Hwf & _ & Hcap).
  destruct (step_total c (Put k v) Hwf) as [[c' r] Hstep]; [lia|].
  destruct (step_inv _ _ _ _ Hwf Hstep) as (Hwf' & _).
  simpl in Hstep. destruct (put k v c) as [c1|u] eqn:Hput; [|done].
  injection Hstep as <- <-. exists c1. split; [done|].
  pose proof (wf_keys _ Hwf) as Hnd. pose proof (wf_keys _ Hwf') as Hnd'.
  destruct (decide (resident k c)) as [Hres|Hres].
  - rewrite decide_False by tauto.
    destruct (resident_at _ _ Hres) as (n & l1 & v0 & l2 & Hl).
    rewrite (put_hit _ _ _ _ v _ _ Hwf Hl) in Hput. injection Hput as <-.
    apply option_eq. intros x. rewrite !stored_Some by done.
    rewrite entries_with_list. unfold entries. rewrite Hl.
    rewrite fmap_cons, !fmap_app, fmap_cons. simpl.
    rewrite elem_of_cons, !elem_of_app, elem_of_cons. split.
    + intros [[= ? ?]|[?|?]]; [done|by left|by right; right].
    + intros [?|[[= ? ?]|?]]; [by right; left|done|by right; right].
  - destruct (put_absent _ _ v Hwf Hres)
      as [(Hlt & c2 & Hput2 & _ & _ & Hes)|
          [(_ & _ & Hput2)|
           (Hle & es & kl & vl & c2 & Hes0 & Hput2 & _ & _ & Hes)]];
      rewrite Hput2 in Hput; [|done|]; injection Hput as <-.
    + rewrite decide_False by lia.
      apply option_eq. intros x. rewrite !stored_Some by done.
      rewrite Hes, elem_of_cons. split; [by intros [[= ? ?]|?]|by right].
    + assert (keys c = es.*1 ++ [kl]) as Hkeys.
      { unfold keys. by rewrite Hes0, fmap_app. }
      pose proof (wf_size _ Hwf) as Hsz.
      rewrite Hkeys, last_snoc. pose proof Hnd as Hsplit.
      rewrite Hkeys in Hsplit.
      apply NoDup_app in Hsplit as (_ & Hdisj & _).
      destruct (decide (kl = k')) as [->|Hkl].
      * rewrite decide_True by (split_and!; [done|lia|done]).
        apply eq_None_not_Some. intros [x Hx].
        apply stored_Some in Hx; [|done].
        rewrite Hes in Hx. apply elem_of_cons in Hx as [[= ? ?]|Hx]; [done|].
        apply (Hdisj k'); [|left].
        apply list_elem_of_fmap. by exists (k', x).
      * rewrite decide_False by (intros (_ & _ & [= ?]); done).
        apply option_eq. intros x. rewrite !stored_Some by done.
        rewrite Hes, Hes0, elem_of_cons, elem_of_app.
        rewrite list_elem_of_singleton.
        split; [by intros [[= ? ?]|?]; [|left]|].
        intros [?|[= ? ?]]; [by right|done].
Qed.

(** X8.  A cache built with capacity one holds, after any [put], the entry
    of that [put] and nothing else. *)
Theorem capacity_one_keeps_last_put c tr k v :
  reachable 1 c tr →
  ∃ c', put k v c = Ok c' ∧ entries c' = [(k, v)].
Proof.
  intros Hreach.
  destruct (reachable_inv _ _ _ Hreach) as (Hwf & _ & Hcap).
  destruct (step_total c (Put k v) Hwf) as [[c' r] Hstep]; [lia|].
  simpl in Hstep. destruct (put k v c) as [c1|u] eqn:Hput; [|done].
  exists c1. split; [done|].
  rewrite (put_entries _ _ _ _ Hwf Hput), Hcap. done.
Qed.

(** X9.  On a reachable state a second [get] of the same key right after
    the first returns the same reply and changes nothing. *)
Theorem get_twice capacity c tr k :
  reachable capacity c tr →
  ∃ c' ov, get k c = Ok (c', ov) ∧ get k c' = Ok (c', ov).
Proof.
  intros Hreach.
  destruct (reachable_inv _ _ _ Hreach) as (Hwf & _ & _).
  destruct (decide (resident k c)) as [Hres|Hres].
  - destruct (resident_at _ _ Hres) as (n & l1 & v & l2 & Hl).
    exists (with_list ((n, (k, v)) :: l1 ++ l2) c), (Some v).
    split; [by apply get_hit|].
    eapply get_front; [by apply wf_move_front|done].
  - exists c, None. split; apply get_miss; by apply wf_absent.
Qed.

(** X10.  On a reachable state of a cache built with a capacity of at least
    one, repeating a [put] with the same key and value changes nothing. *)
Theorem put_twice capacity c tr k v :
  reachable capacity c tr → (1 ≤ capacity)%N →
  ∃ c', put k v c = Ok c' ∧ put k v c' = Ok c'.
Proof.
  intros Hreach Hpos.
  destruct (reachable_inv _ _ _ Hreach) as (Hwf & _ & Hcap).
  destruct (step_total c (Put k v) Hwf) as [[c' r] Hstep]; [lia|].
  destruct (step_inv _ _ _ _ Hwf Hstep) as (Hwf' & _).
  simpl in Hstep. destruct (put k v c) as [c1|u] eqn:Hput; [|done].
  injection Hstep as <- <-. exists c1. split; [done|].
  destruct (entries_front _ _ _ _ (put_entries _ _ _ _ Hwf Hput))
    as (n & l & Hl).
  by eapply put_front.
Qed.

(** X11.  The size of a reachable state is the number of distinct keys
    given to [put] so far, or the capacity if that is smaller. *)
Theorem size_counts_distinct_put_keys capacity c tr :
  reachable capacity c tr →
  size c =
  N.min capacity (N.of_nat (base.size (list_to_set (put_keys tr) : gset K))).
Proof.
  intros Hreach.
  assert (holds_most_recent capacity c tr) as Hkeys.
  { apply (reachable_invariant capacity (holds_most_recent capacity));
      [|apply step_most_recent|done].
    unfold holds_most_recent. simpl. by rewrite take_nil. }
  assert (touched_were_put tr) as Hput.
  { apply (reachable_invariant capacity (λ _ tr, touched_were_put tr))
      with (c := c); [done| |done].
    intros c1 tr1 o c2 r Hr1. by apply (step_touched_were_put capacity). }
  assert ((list_to_set (put_keys tr) : gset K) = list_to_set (touches tr))
    as ->.
  { apply set_eq. intros k. rewrite !elem_of_list_to_set.
    symmetry. apply Hput. }
  rewrite size_entries. unfold holds_most_recent, keys in Hkeys.
  rewrite <-(length_fmap fst), Hkeys, length_take, length_mru. lia.
Qed.
End further.

Section further_invariants.
Context {K : Type} `{Countable K} {V : Type}.
Implicit Types (c : LRUCache K V) (k : K) (v : V).
Implicit Types (tr : list (call K V * reply V)).

(** X12.  In every reachable state, whatever the capacity, no key occurs
    twice in the list and no two entries of the list share a node. *)
Theorem keys_and_nodes_distinct capacity c tr :
  reachable capacity c tr →
  NoDup (keys c) ∧ NoDup (nodes (items_list_ c)).
Proof.
  intros Hreach.
  destruct (reachable_inv _ _ _ Hreach) as (Hwf & _ & _).
  split; [apply (wf_keys _ Hwf)|apply (wf_nodes _ Hwf)].
Qed.

(** X13.  On a reachable state of a cache built with a capacity of at least
    two, the key in front of the list is still resident after any [put]. *)
Theorem front_key_survives_put capacity c tr k ks k' v' :
  reachable capacity c tr → (2 ≤ capacity)%N → keys c = k :: ks →
  ∃ c', put k' v' c = Ok c' ∧ resident k c'.
Proof.
  intros Hreach Hcap2 Hkeys.
  destruct (reachable_inv _ _ _ Hreach) as (Hwf & _ & Hcap).
  destruct (step_total c (Put k' v') Hwf) as [[c' r] Hstep]; [lia|].
  simpl in Hstep. destruct (put k' v' c) as [c1|u] eqn:Hput; [|done].
  exists c1. split; [done|]. unfold resident, keys.
  rewrite (put_entries _ _ _ _ Hwf Hput), fmap_cons, fmap_take, others_keys.
  fold (keys c). rewrite Hkeys, Hcap, filter_cons. simpl.
  destruct (decide (k = k')) as [->|Hne]; [left|].
  rewrite decide_True by done.
  destruct (N.to_nat capacity - 1) as [|n] eqn:Hn; [lia|].
  simpl. right. left.
Qed.

(** X14.  A cache built with capacity zero never holds anything: its only
    reachable state is the fresh one, in which [get] misses, [exists] is
    false and [size] is zero. *)
Theorem capacity_zero_stays_empty c tr k :
  reachable 0 c tr →
  c = new 0 ∧ get k c = Ok (c, None) ∧ exists_ k c = false ∧ size c = 0%N.
Proof.
  intros Hreach.
  destruct (reachable_inv _ _ _ Hreach) as (Hwf & _ & Hcap).
  assert (items_list_ c = []) as Hnil.
  { pose proof (wf_size _ Hwf) as Hsz. unfold size, StdList.size in Hsz.
    destruct (items_list_ c); [done|simpl in Hsz; lia]. }
  assert (∀ k, items_map_ c !! k = None) as Hnone.
  { intros k0. apply wf_absent; [done|]. unfold resident, keys, entries.
    rewrite Hnil. by intros ?%elem_of_nil. }
  split_and!.
  - destruct c as [cap l m]. simpl in *. subst cap l. unfold new. f_equal.
    apply map_eq. intros k0. by rewrite Hnone, lookup_empty.
  - by apply get_miss.
  - unfold exists_. rewrite Hnone. apply bool_decide_eq_false.
    by intros [? ?].
  - unfold size, StdList.size. by rewrite Hnil.
Qed.
End further_invariants.

(** *** The further properties at work on the demonstration program *)

Section further_demonstration.
Import Example.
Open Scope Z_scope.
Open Scope string_scope.
Open Scope list_scope.

Lemma put_fronts_and_cuts_witness :
  reachable 3 loaded loaded_transcript ∧ (1 ≤ 3)%N ∧
  ∃ c', put 4 "four" loaded = Ok c' ∧
    entries c' =
    (4, "four") :: take (N.to_nat 3 - 1) (others 4 (entries loaded)).
Proof.
  assert (1 ≤ 3)%N as Hpos by lia.
  split_and!; [apply loaded_reachable|done|].
  exact (put_fronts_and_cuts 3 loaded loaded_transcript 4 "four"
           loaded_reachable Hpos).
Defined.

Lemma holds_most_recently_touched_witness :
  reachable 3 loaded loaded_transcript ∧
  keys loaded = take (N.to_nat 3) (mru (touches loaded_transcript)).
Proof.
  split; [apply loaded_reachable|].
  exact (holds_most_recently_touched 3 loaded loaded_transcript
           loaded_reachable).
Defined.

Lemma get_returns_latest_put_witness :
  reachable 3 loaded loaded_transcript ∧
  ∃ c', get 2 loaded =
        Ok (c', if decide (resident 2 loaded)
                then last_put 2 loaded_transcript else None).
Proof.
  split; [apply loaded_reachable|].
  exact (get_returns_latest_put 3 loaded loaded_transcript 2
           loaded_reachable).
Defined.

Lemma put_then_get_witness :
  reachable 3 loaded loaded_transcript ∧ (1 ≤ 3)%N ∧
  ∃ c', put 4 "four" loaded = Ok c' ∧ get 4 c' = Ok (c', Some "four").
Proof.
  assert (1 ≤ 3)%N as Hpos by lia.
  split_and!; [apply loaded_reachable|done|].
  exact (put_then_get 3 loaded loaded_transcript 4 "four"
           loaded_reachable Hpos).
Defined.

Lemma size_grows_only_by_new_key_witness :
  reachable 3 loaded loaded_transcript ∧ (1 ≤ 3)%N ∧
  ∃ c' r, step (Put 4 "four") loaded = Ok (c', r) ∧
    size c' = (size loaded + growth 3 (Put 4%Z "four") loaded)%N.
Proof.
  assert (1 ≤ 3)%N as Hpos by lia.
  split_and!; [apply loaded_reachable|done|].
  exact (size_grows_only_by_new_key 3 loaded loaded_transcript
           (Put 4 "four") loaded_reachable Hpos).
Defined.


Lemma put_keeps_other_values_witness :
  reachable 3 loaded loaded_transcript ∧ (1 ≤ 3)%N ∧ 1 ≠ 4 ∧
  ∃ c', put 4 "four" loaded = Ok c' ∧
    stored 1 c' =
    if decide (¬ resident 4 loaded ∧ size loaded = 3%N ∧
               last (keys loaded) = Some 1)
    then None else stored 1 loaded.
Proof.
  assert (1 ≤ 3)%N as Hpos by lia.
  assert (1 ≠ 4) as Hne by lia.
  split_and!; [apply loaded_reachable|done..|].
  exact (put_keeps_other_values 3 loaded loaded_transcript 4 "four" 1
           loaded_reachable Hpos Hne).
Defined.

Lemma capacity_one_keeps_last_put_witness :
  reachable (K:=Z) (V:=string) 1 (new 1) [] ∧
  ∃ c', put 1 "one" (new 1) = Ok c' ∧ entries c' = [(1, "one")].
Proof.
  split; [apply reachable_new|].
  exact (capacity_one_keeps_last_put (new 1) [] 1 "one" (reachable_new 1)).
Defined.

Lemma get_twice_witness :
  reachable 3 loaded loaded_transcript ∧
  ∃ c' ov, get 2 loaded = Ok (c', ov) ∧ get 2 c' = Ok (c', ov).
Proof.
  split; [apply loaded_reachable|].
  exact (get_twice 3 loaded loaded_transcript 2 loaded_reachable).
Defined.

Lemma put_twice_witness :
  reachable 3 loaded loaded_transcript ∧ (1 ≤ 3)%N ∧
  ∃ c', put 4 "four" loaded = Ok c' ∧ put 4 "four" c' = Ok c'.
Proof.
  assert (1 ≤ 3)%N as Hpos by lia.
  split_and!; [apply loaded_reachable|done|].
  exact (put_twice 3 loaded loaded_transcript 4 "four"
           loaded_reachable Hpos).
Defined.

Lemma size_counts_distinct_put_keys_witness :
  reachable 3 loaded loaded_transcript ∧
  size loaded =
  N.min 3 (N.of_nat
             (base.size (list_to_set (put_keys loaded_transcript) : gset Z))).
Proof.
  split; [apply loaded_reachable|].
  exact (size_counts_distinct_put_keys 3 loaded loaded_transcript
           loaded_reachable).
Defined.

Lemma keys_and_nodes_distinct_witness :
  reachable 3 loaded loaded_transcript ∧
  NoDup (keys loaded) ∧ NoDup (nodes (items_list_ loaded)).
Proof.
  split; [apply loaded_reachable|].
  exact (keys_and_nodes_distinct 3 loaded loaded_transcript
           loaded_reachable).
Defined.

Lemma front_key_survives_put_witness :
  reachable 3 loaded loaded_transcript ∧ (2 ≤ 3)%N ∧
  keys loaded = 3 :: [2; 1] ∧
  ∃ c', put 4 "four" loaded = Ok c' ∧ resident 3 c'.
Proof.
  assert (2 ≤ 3)%N as Hcap by lia.
  assert (keys loaded = 3 :: [2; 1]) as Hkeys by (by vm_compute).
  do 3 (split; [first [apply loaded_reachable|done]|]).
  exact (front_key_survives_put 3 loaded loaded_transcript 3 [2; 1] 4 "four"
           loaded_reachable Hcap Hkeys).
Defined.

Lemma capacity_zero_stays_empty_witness :
  reachable (K:=Z) (V:=string) 0 (new 0) [] ∧
  new (K:=Z) (V:=string) 0 = new 0 ∧
  get 1 (new 0) = Ok (new (K:=Z) (V:=string) 0, None) ∧
  exists_ 1 (new (K:=Z) (V:=string) 0) = false ∧
  size (new (K:=Z) (V:=string) 0) = 0%N.
Proof.
  split; [apply reachable_new|].
  exact (capacity_zero_stays_empty (new 0) [] 1 (reachable_new 0)).
Defined.
End further_demonstration.
